(** * The French noun formatter of Scribe-Data

    A shallow embedding of
    [src/scribe_data/extract_transform/languages/French/nouns/format_nouns.py]:
    the two helpers [map_genders] and [order_annotations], the merge loop
    that builds [nouns_formatted], the normalisation pass and the final
    sort by key.

    Python strings are modelled by [string] (a sequence of bytes, the
    UTF-8 encoding of the text: splitting on the byte of the slash and
    byte-wise comparison agree with Python's code-point versions), Python
    dictionaries with string keys by [gmap string _], and Python's [set] of
    strings by [gset string]. *)

From Stdlib Require Import String Ascii.
From stdpp Require Import gmap strings list fin_maps sorting.

Local Open Scope string_scope.

(** ** The default ordering of strings *)

Definition str_le (a b : string) : Prop := String.leb a b = true.

#[global] Instance str_le_dec (a b : string) : Decision (str_le a b).
Proof. unfold str_le. apply _. Defined.

(** ** String primitives used by the script *)

(** [s.split(c)] for a separator of one character: the maximal pieces of
    [s] between occurrences of [c]; always at least one piece. *)
Fixpoint split (c : ascii) (s : string) : list string :=
  match s with
  | EmptyString => [EmptyString]
  | String a s' =>
      if Ascii.eqb a c then EmptyString :: split c s'
      else match split c s' with
           | [] => [String a EmptyString]
           | t :: ts => String a t :: ts
           end
  end.

(** [sep.join(l)]. *)
Fixpoint join (sep : string) (l : list string) : string :=
  match l with
  | [] => EmptyString
  | [x] => x
  | x :: l' => x ++ sep ++ join sep l'
  end.

(** [sorted(l)] on strings: Python's sort is a stable merge sort under the
    default ordering. *)
Definition sorted (l : list string) : list string := merge_sort str_le l.

(** ** The two helpers *)

(** Lines 34-43. *)
Definition map_genders (wikidata_gender : string) : string :=
  if decide (wikidata_gender ∈ ["masculine"; "Q499327"]) then "M"
  else if decide (wikidata_gender ∈ ["feminine"; "Q1775415"]) then "F"
  else "".

Definition single_annotations : list string := ["F"; "M"; "PL"].

(** Lines 46-61. *)
Definition order_annotations (annotation : string) : string :=
  if decide (annotation ∈ single_annotations) then annotation
  else
    let annotation_split :=
      sorted (filter (λ a, a ≠ "")
                (elements (list_to_set (split "/" annotation) : gset string))) in
    join "/" annotation_split.

(** The token list computed at line 59, as a function of the pieces. *)
Definition annotation_tokens (l : list string) : list string :=
  sorted (filter (λ a, a ≠ "") (elements (list_to_set l : gset string))).

(** The Annotation Orderer as the specification words it: fast path, then
    split, drop the empty tokens, deduplicate, sort, rejoin. *)
Definition order_annotations_spec (s : string) : string :=
  if decide (s = "F" ∨ s = "M" ∨ s = "PL") then s
  else
    let tokens := split "/" s in
    let nonempty := filter (λ a, a ≠ "") tokens in
    let distinct := remove_dups nonempty in
    join "/" (sorted distinct).

(** [c] does not occur in [s]. *)
Fixpoint no_sep (c : ascii) (s : string) : Prop :=
  match s with
  | EmptyString => True
  | String a s' => a ≠ c ∧ no_sep c s'
  end.

(** ** The merge engine

    The script keeps one global dictionary, [nouns_formatted], from
    wordforms to entries; an entry is itself a dictionary from field names
    to strings.  Subscripting a dictionary with an absent key raises
    [KeyError].  The engine is written in a state-and-exception monad over
    that global; the state also records which branches of the loop body
    have been entered, so that reachability can be stated. *)

Module Engine.

Inductive exn := KeyError (k : string).

Inductive res (A : Type) :=
  | Ok (a : A)
  | Raise (e : exn).
Arguments Ok {A} a.
Arguments Raise {A} e.

(** The places of the loop body (source lines in comments). *)
Inductive branch :=
  | SingularNew        (* 69-92: the singular is not yet a key *)
  | PluralRegistered   (* 80-83: its plural is not yet a key *)
  | PluralCollision    (* 87-92: its plural is already a key *)
  | GenderAppend       (* 100-102: stored form differs from the raw gender *)
  | GenderFieldTest    (* 104: the elif test, reading the gender field *)
  | GenderFieldSet     (* 105-107: the elif body, writing the gender field *)
  | PluralOnlyNew      (* 112: plural-only record, plural not yet a key *)
  | PluralOnlyTest     (* 115: the elif test of the plural-only branch *)
  | PluralOnlyUpdate.  (* 116-119: the elif body of the plural-only branch *)

#[global] Instance branch_eq_dec : EqDecision branch.
Proof. solve_decision. Defined.

Abbreviation entry := (gmap string string).
Abbreviation record := (gmap string string).

Record machine := Machine {
  nouns_formatted : gmap string entry;
  visited : list branch
}.

Definition M (A : Type) : Type := machine → res A * machine.

#[global] Instance M_ret : MRet M := λ A a σ, (Ok a, σ).
#[global] Instance M_bind : MBind M := λ A B f c σ,
  match c σ with
  | (Ok a, σ') => f a σ'
  | (Raise e, σ') => (Raise e, σ')
  end.

Definition raise {A} (e : exn) : M A := λ σ, (Raise e, σ).

(** [d[k]] on a dictionary value. *)
Definition subscript {V} (d : gmap string V) (k : string) : M V :=
  match d !! k with
  | Some v => mret v
  | None => raise (KeyError k)
  end.

(** [k in d.keys()]. *)
Definition has_key {V} (d : gmap string V) (k : string) : bool :=
  match d !! k with
  | Some _ => true
  | None => false
  end.

Definition get_nouns : M (gmap string entry) := λ σ, (Ok (nouns_formatted σ), σ).

(** [k in nouns_formatted]. *)
Definition contains (k : string) : M bool :=
  m ← get_nouns; mret (has_key m k).

(** [nouns_formatted[k] = e]. *)
Definition set_entry (k : string) (e : entry) : M () := λ σ,
  (Ok (), Machine (<[k := e]> (nouns_formatted σ)) (visited σ)).

(** [nouns_formatted[k][f]]. *)
Definition get_field (k f : string) : M string :=
  m ← get_nouns; e ← subscript m k; subscript e f.

(** [nouns_formatted[k][f] = v]: the entry is fetched, then updated in
    place. *)
Definition set_field (k f v : string) : M () :=
  m ← get_nouns; e ← subscript m k; set_entry k (<[f := v]> e).

Definition visit (b : branch) : M () := λ σ,
  (Ok (), Machine (nouns_formatted σ) (visited σ ++ [b])).

Definition new_singular_entry : entry := {[ "plural" := ""; "form" := "" ]}.
Definition new_plural_entry : entry := {[ "plural" := "isPlural"; "form" := "PL" ]}.

(** The body of the loop at lines 66-119, for one record. *)
Definition step (noun_vals : record) : M () :=
  if has_key noun_vals "singular" then
    singular ← subscript noun_vals "singular";
    known ← contains singular;
    if negb known then
      visit SingularNew;;
      set_entry singular new_singular_entry;;
      (if has_key noun_vals "gender" then
         gender ← subscript noun_vals "gender";
         set_field singular "form" (map_genders gender)
       else mret ());;
      if has_key noun_vals "plural" then
        plural ← subscript noun_vals "plural";
        set_field singular "plural" plural;;
        known_plural ← contains plural;
        if negb known_plural then
          visit PluralRegistered;;
          set_entry plural new_plural_entry
        else
          visit PluralCollision;;
          set_field singular "plural" plural;;
          form ← get_field singular "form";
          set_field singular "form" (form ++ "/PL")
      else mret ()
    else
      if has_key noun_vals "gender" then
        form ← get_field singular "form";
        gender ← subscript noun_vals "gender";
        if bool_decide (form ≠ gender) then
          visit GenderAppend;;
          form ← get_field singular "form";
          gender ← subscript noun_vals "gender";
          set_field singular "form" (form ++ "/" ++ map_genders gender)
        else
          visit GenderFieldTest;;
          stored ← get_field singular "gender";
          if bool_decide (stored = "") then
            visit GenderFieldSet;;
            gender ← subscript noun_vals "gender";
            set_field singular "gender" (map_genders gender)
          else mret ()
      else mret ()
  else if has_key noun_vals "plural" then
    plural ← subscript noun_vals "plural";
    known ← contains plural;
    if negb known then
      visit PluralOnlyNew;;
      set_entry plural new_plural_entry
    else
      visit PluralOnlyTest;;
      if has_key noun_vals "singular" then
        visit PluralOnlyUpdate;;
        singular ← subscript noun_vals "singular";
        set_field singular "plural" plural;;
        form ← get_field singular "form";
        set_field singular "form" (form ++ "/PL")
      else mret ()
  else mret ().

(** Lines 66-119: [for noun_vals in nouns_list]. *)
Fixpoint merge_loop (nouns_list : list record) : M () :=
  match nouns_list with
  | [] => mret ()
  | noun_vals :: rest => step noun_vals;; merge_loop rest
  end.

Fixpoint for_each {A} (l : list A) (body : A → M ()) : M () :=
  match l with
  | [] => mret ()
  | x :: l' => body x;; for_each l' body
  end.

(** Line 122, for one key [k]. *)
Definition normalise_entry (k : string) : M () :=
  form ← get_field k "form";
  set_field k "form" (order_annotations form).

(** Lines 121-122: the keys do not change during the iteration, and the
    order in which they are met does not influence the result. *)
Definition normalise : M () :=
  m ← get_nouns;
  for_each (map_to_list m).*1 normalise_entry.

(** The comparison of two items [(key, entry)]: Python compares the keys
    first and looks at the entries only when the keys are equal, which does
    not happen between the items of one dictionary. *)
Definition item_le (x y : string * entry) : Prop := str_le x.1 y.1.

#[global] Instance item_le_dec x y : Decision (item_le x y).
Proof. unfold item_le. apply _. Defined.

(** Line 124: [collections.OrderedDict(sorted(nouns_formatted.items()))],
    an ordered mapping given by its items in order. *)
Definition sorted_items (m : gmap string entry) : list (string * entry) :=
  merge_sort item_le (map_to_list m).

(** Lines 64-124. *)
Definition format_nouns (nouns_list : list record) : M (list (string * entry)) :=
  merge_loop nouns_list;;
  normalise;;
  m ← get_nouns;
  mret (sorted_items m).

(** Line 64: [nouns_formatted = {}]. *)
Definition initial : machine := Machine ∅ [].

Definition run_merge (nouns_list : list record) : res () * machine :=
  merge_loop nouns_list initial.

Definition run (nouns_list : list record) : res (list (string * entry)) :=
  (format_nouns nouns_list initial).1.

End Engine.
Import Engine.


(** ** Vocabulary for the properties *)

(** An entry as the engine builds them: it has a [form] field and no
    [gender] field. *)
Definition wf_entry (e : entry) : Prop :=
  is_Some (e !! "form") ∧ e !! "gender" = None.

Definition wf_store (m : gmap string entry) : Prop :=
  map_Forall (λ _ e, wf_entry e) m.

(** The entry created at lines 69-74, and its form. *)
Definition created_entry (r : record) : entry :=
  match r !! "gender" with
  | Some g => <["form" := map_genders g]> new_singular_entry
  | None => new_singular_entry
  end.

Definition created_form (r : record) : string :=
  match r !! "gender" with
  | Some g => map_genders g
  | None => ""
  end.

(** The wordform [k] is the singular or the plural value of the record. *)
Definition mentions (r : record) (k : string) : Prop :=
  r !! "singular" = Some k ∨ r !! "plural" = Some k.

(** The paths of the loop body through a store whose entries are
    well formed: outcome, resulting store, branches entered. *)
Inductive step_rel (r : record) (m : gmap string entry) :
    res () → gmap string entry → list branch → Prop :=
  | step_singular_new s :
      r !! "singular" = Some s → m !! s = None → r !! "plural" = None →
      step_rel r m (Ok ()) (<[s := created_entry r]> m) [SingularNew]
  | step_plural_registered s p :
      r !! "singular" = Some s → m !! s = None → r !! "plural" = Some p →
      p ≠ s → m !! p = None →
      step_rel r m (Ok ())
        (<[p := new_plural_entry]>
           (<[s := <["plural" := p]> (created_entry r)]> m))
        [SingularNew; PluralRegistered]
  | step_plural_collision s p :
      r !! "singular" = Some s → m !! s = None → r !! "plural" = Some p →
      p = s ∨ is_Some (m !! p) →
      step_rel r m (Ok ())
        (<[s := <["form" := created_form r ++ "/PL"]>
                  (<["plural" := p]> (created_entry r))]> m)
        [SingularNew; PluralCollision]
  | step_known_no_gender s e :
      r !! "singular" = Some s → m !! s = Some e → r !! "gender" = None →
      step_rel r m (Ok ()) m []
  | step_gender_append s e g f :
      r !! "singular" = Some s → m !! s = Some e → r !! "gender" = Some g →
      e !! "form" = Some f → f ≠ g →
      step_rel r m (Ok ())
        (<[s := <["form" := f ++ "/" ++ map_genders g]> e]> m) [GenderAppend]
  | step_gender_field s e g :
      r !! "singular" = Some s → m !! s = Some e → r !! "gender" = Some g →
      e !! "form" = Some g → e !! "gender" = None →
      step_rel r m (Raise (KeyError "gender")) m [GenderFieldTest]
  | step_plural_only_new p :
      r !! "singular" = None → r !! "plural" = Some p → m !! p = None →
      step_rel r m (Ok ()) (<[p := new_plural_entry]> m) [PluralOnlyNew]
  | step_plural_only_known p :
      r !! "singular" = None → r !! "plural" = Some p → is_Some (m !! p) →
      step_rel r m (Ok ()) m [PluralOnlyTest]
  | step_ignored :
      r !! "singular" = None → r !! "plural" = None →
      step_rel r m (Ok ()) m [].

(** ** Inputs used as test cases *)

(** Scenario A of the specification. *)
Definition scenario_A : list record :=
  [ {[ "singular" := "chat"; "plural" := "chats"; "gender" := "masculine" ]} ].

(** Scenario C of the specification. *)
Definition scenario_C : list record :=
  [ {[ "singular" := "table"; "gender" := "feminine" ]};
    {[ "singular" := "table"; "gender" := "masculine" ]} ].

(** A noun with two plurals, one record for each. *)
Definition ciel_input : list record :=
  [ {[ "singular" := "ciel"; "plural" := "cieux"; "gender" := "masculine" ]};
    {[ "singular" := "ciel"; "plural" := "ciels"; "gender" := "masculine" ]} ].

(** A noun met twice, the second time with an already abbreviated gender. *)
Definition chat_input : list record :=
  [ {[ "singular" := "chat"; "gender" := "masculine" ]};
    {[ "singular" := "chat"; "gender" := "M" ]} ].

(** ** Vocabulary for further properties *)

(** What line 122 does to one entry. *)
Definition normalise_fields (e : entry) : entry :=
  match e !! "form" with
  | Some f => <["form" := order_annotations f]> e
  | None => e
  end.

(** Python's [<] on strings. *)
Definition str_lt (a b : string) : Prop := String.compare a b = Lt.

(** The pieces of a form between slashes are annotations or empty. *)
Definition annotation_pieces (f : string) : Prop :=
  Forall (λ t, t ∈ [""; "M"; "F"; "PL"]) (split "/" f).

(** The forms that can come out of the normalisation pass. *)
Definition canonical_forms : list string :=
  [""; "F"; "M"; "PL"; "F/M"; "F/PL"; "M/PL"; "F/M/PL"].

(** The fields of an entry. *)
Definition entry_fields : gset string := {[ "plural"; "form" ]}.

(** An entry with exactly these fields, whose form is made of annotations
    and slashes. *)
Definition good_entry (e : entry) : Prop :=
  dom e = entry_fields ∧ ∃ f, e !! "form" = Some f ∧ annotation_pieces f.

Definition good_store (m : gmap string entry) : Prop :=
  map_Forall (λ _ e, good_entry e) m.

(** The condition under which the test of line 104 is met. *)
Definition gender_test_met (r : record) (m : gmap string entry) : Prop :=
  ∃ s e g, r !! "singular" = Some s ∧ m !! s = Some e ∧
           r !! "gender" = Some g ∧ e !! "form" = Some g.

(** [f'] is [f], or [f] followed by a slash and more. *)
Definition form_extends (f f' : string) : Prop :=
  f' = f ∨ ∃ g, f' = f ++ "/" ++ g.

(** Same [plural] field, and a form that extends the former one. *)
Definition entry_extends (e e' : entry) : Prop :=
  e' !! "plural" = e !! "plural" ∧
  ∀ f, e !! "form" = Some f →
       ∃ f', e' !! "form" = Some f' ∧ form_extends f f'.

Definition store_extends (m m' : gmap string entry) : Prop :=
  ∀ k e, m !! k = Some e → ∃ e', m' !! k = Some e' ∧ entry_extends e e'.

(** Where an annotation [t] on the wordform [k] can come from. *)
Definition annotation_source (l : list record) (k t : string) : Prop :=
  (t = "PL" ∧ ∃ r, r ∈ l ∧
     (r !! "plural" = Some k ∨
      (r !! "singular" = Some k ∧ is_Some (r !! "plural")))) ∨
  (∃ r g, r ∈ l ∧ r !! "singular" = Some k ∧ r !! "gender" = Some g ∧
          map_genders g = t).

(** Every annotation of the store has a source in [l]. *)
Definition sourced (l : list record) (m : gmap string entry) : Prop :=
  ∀ k e f t, m !! k = Some e → e !! "form" = Some f →
             t ∈ split "/" f → t ≠ "" → annotation_source l k t.

(** The output of scenario A. *)
Definition scenario_A_result : list (string * entry) :=
  [ ("chat", {[ "plural" := "chats"; "form" := "M" ]});
    ("chats", new_plural_entry) ].

(** * The interactive front end

    [run_request] of [src/scribe_data/cli/interactive.py]: the loop over
    the selected languages and data types.  What it prints, logs and
    reports to the progress bar is kept as a list of events; the
    configuration object is only read. *)

Module Interactive.

(** Lines 58-66; [Path] is the type of [pathlib.Path] values. *)
Record ScribeDataConfig (Path : Type) := {
  languages : list string;
  data_types : list string;
  selected_languages : list string;
  selected_data_types : list string;
  output_type : string;
  output_dir : Path;
  overwrite : bool
}.
Arguments languages {Path} _.
Arguments data_types {Path} _.
Arguments selected_languages {Path} _.
Arguments selected_data_types {Path} _.
Arguments output_type {Path} _.
Arguments output_dir {Path} _.
Arguments overwrite {Path} _.

(** What [run_request] does to the outside, in order. *)
Inductive event :=
  | Rprint (msg : string)
  | PbarOpen (total : nat)
  | PbarSetDescription (desc : string)
  | GetData (language data_type output_type output_dir : string)
            (overwrite interactive : bool)
  | LogInfo (msg : string)
  | PbarUpdate (n : nat)
  | PbarClose.

Definition error_message : string :=
  "[bold red]Error: Please configure languages and data types.[/bold red]".

Definition success_message : string :=
  "[bold green]Data request completed successfully![/bold green]".

Section RunRequest.

Context {World Path : Type}.

(** [scribe_data.cli.get.get_data] is not part of the sources at hand: it
    is taken as a parameter that reads and changes the outside world and
    returns a truth value. *)
Variable get_data :
  string → string → string → string → bool → bool → World → bool * World.

(** [str] on paths. *)
Variable path_str : Path → string.

(** Lines 201-220: the body of the inner loop. *)
Definition export_pair (config : ScribeDataConfig Path)
    (language data_type : string) (w : World) : list event * World :=
  let '(exported, w') :=
    get_data language data_type (output_type config)
      (path_str (output_dir config)) (overwrite config) true w in
  ([ PbarSetDescription
       ("Exporting " ++ language ++ " " ++ data_type ++ " data");
     GetData language data_type (output_type config)
       (path_str (output_dir config)) (overwrite config) true;
     LogInfo
       (if exported
        then "[green]✔ Exported " ++ language ++ " " ++ data_type
               ++ " data.[/green]"
        else "[red]✘ Failed to export " ++ language ++ " " ++ data_type
               ++ " data.[/red]");
     PbarUpdate 1 ], w').

(** Line 200: [for data_type in config.selected_data_types]. *)
Fixpoint for_data_types (config : ScribeDataConfig Path) (language : string)
    (todo : list string) (w : World) : list event * World :=
  match todo with
  | [] => ([], w)
  | data_type :: rest =>
      let '(ev1, w1) := export_pair config language data_type w in
      let '(ev2, w2) := for_data_types config language rest w1 in
      (ev1 ++ ev2, w2)%list
  end.

(** Line 199: [for language in config.selected_languages]. *)
Fixpoint for_languages (config : ScribeDataConfig Path)
    (todo : list string) (w : World) : list event * World :=
  match todo with
  | [] => ([], w)
  | language :: rest =>
      let '(ev1, w1) :=
        for_data_types config language (selected_data_types config) w in
      let '(ev2, w2) := for_languages config rest w1 in
      (ev1 ++ ev2, w2)%list
  end.

(** Lines 182-223. *)
Definition run_request (config : ScribeDataConfig Path) (w : World) :
    list event * World :=
  if bool_decide (selected_languages config = []) ||
     bool_decide (selected_data_types config = [])
  then ([Rprint error_message], w)
  else
    let total_operations :=
      length (selected_languages config) *
      length (selected_data_types config) in
    let '(ev, w') := for_languages config (selected_languages config) w in
    ([PbarOpen total_operations] ++ ev ++ [PbarClose] ++
     (if overwrite config then [Rprint success_message] else []), w')%list.

End RunRequest.

(** The pairs for which [get_data] is called, in order. *)
Definition exports (ev : list event) : list (string * string) :=
  omap (λ e, match e with
             | GetData language data_type _ _ _ _ => Some (language, data_type)
             | _ => None
             end) ev.

(** The progress reported to the bar. *)
Definition progress (ev : list event) : nat :=
  sum_list_with (λ e, match e with PbarUpdate n => n | _ => 0 end) ev.

(** The total announced when the bar is opened. *)
Definition announced (ev : list event) : list nat :=
  omap (λ e, match e with PbarOpen n => Some n | _ => None end) ev.

(** A configuration used as a test case, with paths as strings. *)
Definition test_config (ow : bool) : ScribeDataConfig string :=
  {| languages := ["French"; "German"];
     data_types := ["nouns"; "verbs"];
     selected_languages := ["French"; "German"];
     selected_data_types := ["nouns"; "verbs"];
     output_type := "json";
     output_dir := "scribe_data_json_export";
     overwrite := ow |}.

(** A [get_data] that fails on every request and leaves the world alone. *)
Definition failing_get_data
    (language data_type output_type output_dir : string)
    (overwrite interactive : bool) (w : unit) : bool * unit :=
  (false, w).

End Interactive.

(** * Properties *)

(** ** The ordering of strings is a total order *)

Lemma ascii_compare_refl (a : ascii) : Ascii.compare a a = Eq.
Proof. unfold Ascii.compare. apply N.compare_refl. Qed.

Lemma ascii_compare_lt_trans (a b c : ascii) :
  Ascii.compare a b = Lt → Ascii.compare b c = Lt → Ascii.compare a c = Lt.
Proof.
  unfold Ascii.compare. rewrite !N.compare_lt_iff. lia.
Qed.

Lemma compare_refl (s : string) : String.compare s s = Eq.
Proof.
  induction s as [|a s IH]; cbn; [done|].
  by rewrite ascii_compare_refl.
Qed.

Lemma compare_lt_trans (s1 s2 s3 : string) :
  String.compare s1 s2 = Lt → String.compare s2 s3 = Lt →
  String.compare s1 s3 = Lt.
Proof.
  revert s2 s3.
  induction s1 as [|a s1 IH]; intros [|b s2] [|c s3]; cbn; try done.
  destruct (Ascii.compare a b) eqn:Hab; try done;
    destruct (Ascii.compare b c) eqn:Hbc; try done; intros H1 H2.
  - apply Ascii.compare_eq_iff in Hab, Hbc. subst.
    rewrite ascii_compare_refl. eauto.
  - apply Ascii.compare_eq_iff in Hab. subst. by rewrite Hbc.
  - apply Ascii.compare_eq_iff in Hbc. subst. by rewrite Hab.
  - by rewrite (ascii_compare_lt_trans a b c).
Qed.

Lemma str_le_alt (a b : string) :
  str_le a b ↔ a = b ∨ String.compare a b = Lt.
Proof.
  unfold str_le, String.leb. split.
  - destruct (String.compare a b) eqn:Hc; try done.
    + left. by apply String.compare_eq_iff.
    + by right.
  - intros [->| ->]; [|done]. by rewrite compare_refl.
Qed.

#[global] Instance str_le_refl : Reflexive str_le.
Proof. intros a. apply str_le_alt. by left. Qed.

#[global] Instance str_le_trans : Transitive str_le.
Proof.
  intros a b c. rewrite !str_le_alt.
  intros [->|H1] [->|H2]; eauto using compare_lt_trans.
Qed.

#[global] Instance str_le_total : Total str_le.
Proof. intros a b. apply String.leb_total. Qed.

#[global] Instance str_le_antisym : AntiSymm (=) str_le.
Proof. intros a b. apply String.leb_antisym. Qed.


(** ** Splitting and joining *)

Section Strings.

Lemma append_nil_l (s : string) : "" ++ s = s.
Proof. reflexivity. Qed.

Lemma append_cons a (s t : string) : String a s ++ t = String a (s ++ t).
Proof. reflexivity. Qed.

Lemma split_no_sep c s : Forall (no_sep c) (split c s).
Proof.
  induction s as [|a s IH]; cbn -[Ascii.eqb].
  - by repeat constructor.
  - destruct (Ascii.eqb_spec a c) as [->|Hne].
    + by constructor.
    + destruct (split c s) as [|t ts]; [by repeat constructor|].
      inversion_clear IH. by repeat constructor.
Qed.

Lemma split_app_sep c t rest :
  no_sep c t → split c (t ++ String c rest) = t :: split c rest.
Proof.
  induction t as [|a t IH]; rewrite ?append_nil_l, ?append_cons;
    cbn -[Ascii.eqb].
  - intros _. by rewrite Ascii.eqb_refl.
  - intros [Hne Ht]. destruct (Ascii.eqb_spec a c) as [->|_]; [done|].
    by rewrite IH.
Qed.

Lemma split_one c t : no_sep c t → split c t = [t].
Proof.
  induction t as [|a t IH]; cbn -[Ascii.eqb]; [done|].
  intros [Hne Ht]. destruct (Ascii.eqb_spec a c) as [->|_]; [done|].
  by rewrite IH.
Qed.

(** Splitting undoes joining when no piece contains the separator. *)
Lemma split_join c T :
  Forall (no_sep c) T → T ≠ [] →
  split c (join (String c EmptyString) T) = T.
Proof.
  induction T as [|t T IH]; [done|].
  intros HT _. inversion_clear HT as [|?? Ht HT'].
  destruct T as [|t' T]; cbn [join].
  - by apply split_one.
  - rewrite append_cons, append_nil_l, split_app_sep by done.
    f_equal. by apply IH.
Qed.

(** ** The token list of line 59 *)

Lemma order_annotations_unfold s :
  order_annotations s =
    if decide (s ∈ single_annotations) then s
    else join "/" (annotation_tokens (split "/" s)).
Proof. reflexivity. Qed.

(** A sorted list is the result of sorting any of its permutations. *)
Lemma sorted_unique (l T : list string) :
  l ≡ₚ T → StronglySorted str_le T → sorted l = T.
Proof.
  intros Hp HT. apply (StronglySorted_unique str_le); [|done|].
  - apply StronglySorted_merge_sort; apply _.
  - unfold sorted. by rewrite merge_sort_Permutation.
Qed.

Lemma annotation_tokens_unique (l T : list string) :
  StronglySorted str_le T → NoDup T →
  (∀ x, x ∈ T ↔ x ≠ "" ∧ x ∈ l) →
  annotation_tokens l = T.
Proof.
  intros Hs Hn Hm. apply sorted_unique; [|done].
  apply NoDup_Permutation; [|done|].
  - apply NoDup_filter, NoDup_elements.
  - intros x. rewrite list_elem_of_filter, elem_of_elements,
      elem_of_list_to_set. symmetry. apply Hm.
Qed.

Lemma annotation_tokens_sorted l : StronglySorted str_le (annotation_tokens l).
Proof. apply StronglySorted_merge_sort; apply _. Qed.

Lemma annotation_tokens_elem l x :
  x ∈ annotation_tokens l ↔ x ≠ "" ∧ x ∈ l.
Proof.
  unfold annotation_tokens, sorted. rewrite merge_sort_Permutation.
  by rewrite list_elem_of_filter, elem_of_elements, elem_of_list_to_set.
Qed.

Lemma annotation_tokens_NoDup l : NoDup (annotation_tokens l).
Proof.
  unfold annotation_tokens, sorted. rewrite merge_sort_Permutation.
  apply NoDup_filter, NoDup_elements.
Qed.

(** Joining the tokens and splitting again gives the same tokens. *)
Lemma annotation_tokens_join s :
  let T := annotation_tokens (split "/" s) in
  annotation_tokens (split "/" (join "/" T)) = T.
Proof.
  intros T. apply annotation_tokens_unique.
  - apply annotation_tokens_sorted.
  - apply annotation_tokens_NoDup.
  - intros x. destruct (decide (T = [])) as [HT|HT].
    + rewrite HT. cbn. rewrite elem_of_nil, list_elem_of_singleton.
      split; [done|]. by intros [Hx ->].
    + rewrite split_join; [| |done].
      * subst T. rewrite annotation_tokens_elem. tauto.
      * apply Forall_forall. intros t Ht.
        apply annotation_tokens_elem in Ht as [_ Ht].
        revert t Ht. apply Forall_forall, split_no_sep.
Qed.

End Strings.

(** C5: the Annotation Orderer is idempotent: ordering an already ordered
    annotation changes nothing, for every string. *)
Theorem order_annotations_idempotent (s : string) :
  order_annotations (order_annotations s) = order_annotations s.
Proof.
  rewrite (order_annotations_unfold s).
  destruct (decide (s ∈ single_annotations)) as [Hs|Hs].
  - rewrite order_annotations_unfold. by rewrite decide_True.
  - rewrite order_annotations_unfold. case_decide; [done|].
    by rewrite annotation_tokens_join.
Qed.

(** C6: [order_annotations] returns its argument unchanged on ["F"], ["M"]
    and ["PL"], and otherwise the pieces between slashes, without the empty
    ones, deduplicated, sorted and rejoined with slashes: it computes what
    the specification's wording computes. *)
Theorem order_annotations_refines_spec (s : string) :
  order_annotations s = order_annotations_spec s.
Proof.
  rewrite order_annotations_unfold.
  unfold order_annotations_spec, single_annotations.
  destruct (decide (s ∈ ["F"; "M"; "PL"])) as [Hs|Hs];
    destruct (decide (s = "F" ∨ s = "M" ∨ s = "PL")) as [Hs'|Hs']; try done.
  - exfalso. apply Hs'. rewrite !elem_of_cons, elem_of_nil in Hs. tauto.
  - exfalso. apply Hs. rewrite !elem_of_cons, elem_of_nil. tauto.
  - cbv zeta. f_equal. apply annotation_tokens_unique.
    + apply StronglySorted_merge_sort; apply _.
    + unfold sorted. rewrite merge_sort_Permutation. apply NoDup_remove_dups.
    + intros x. unfold sorted. rewrite merge_sort_Permutation.
      by rewrite elem_of_remove_dups, list_elem_of_filter.
Qed.

(** C7: [map_genders] is a total function that maps the two masculine
    tokens to ["M"], the two feminine tokens to ["F"] and everything else
    to the empty string. *)
Theorem map_genders_total (g : string) :
  (g = "masculine" ∨ g = "Q499327" → map_genders g = "M") ∧
  (g = "feminine" ∨ g = "Q1775415" → map_genders g = "F") ∧
  (g ≠ "masculine" → g ≠ "Q499327" → g ≠ "feminine" → g ≠ "Q1775415" →
   map_genders g = "").
Proof.
  unfold map_genders. repeat split.
  - intros [->| ->]; reflexivity.
  - intros [->| ->]; reflexivity.
  - intros H1 H2 H3 H4.
    rewrite decide_False, decide_False; [done|..];
      rewrite !elem_of_cons, elem_of_nil; tauto.
Qed.

Lemma map_genders_total_witness :
  map_genders "masculine" = "M" ∧ map_genders "Q1775415" = "F" ∧
  map_genders "neuter" = "".
Proof.
  split; [|split].
  - apply (map_genders_total "masculine"). left. reflexivity.
  - apply (map_genders_total "Q1775415"). right. reflexivity.
  - apply (map_genders_total "neuter"); discriminate.
Defined.

(** ** One record *)

Lemma created_entry_form r : created_entry r !! "form" = Some (created_form r).
Proof. unfold created_entry, created_form. by destruct (r !! "gender"). Qed.

(** Symbolic execution of the monadic code on a machine whose lookups are
    known from the hypotheses. *)
Ltac exec_lookup :=
  match goal with
  | H : ?m !! ?k = _ |- context [ ?m !! ?k ] => rewrite H
  | |- context [ <[?k := _]> _ !! ?k ] => rewrite lookup_insert_eq
  | |- context [ <[?k := _]> _ !! ?k' ] =>
      rewrite (lookup_insert_ne _ k k') by congruence
  | |- context [ {[?k := _]} !! ?k ] => rewrite lookup_singleton_eq
  | |- context [ <[?k := _]> (<[?k := _]> _) ] => rewrite insert_insert_eq
  | |- context [ bool_decide ?P ] =>
      first [ rewrite (bool_decide_eq_true_2 P) by congruence
            | rewrite (bool_decide_eq_false_2 P) by (intros ?; congruence) ]
  end.

Ltac exec :=
  unfold step, normalise_entry, contains, get_field, set_field, set_entry,
    visit, get_nouns, subscript, raise, has_key, mbind, M_bind, mret, M_ret,
    new_singular_entry;
  repeat (cbn -[bool_decide String.append map_genders insert lookup];
          try exec_lookup);
  rewrite <- ?app_assoc; cbn [app].

(** On a well-formed store the loop body follows one of the paths of
    [step_rel]. *)
Lemma step_sound r m v :
  wf_store m →
  ∃ out m' tr, step r (Machine m v) = (out, Machine m' (v ++ tr)) ∧
               step_rel r m out m' tr.
Proof.
  intros Hwf.
  destruct (r !! "singular") as [s|] eqn:Hs.
  - destruct (m !! s) as [e|] eqn:Hms.
    + destruct (r !! "gender") as [g|] eqn:Hg.
      * destruct (Hwf s e Hms) as [[f Hf] Hgen].
        destruct (decide (f = g)) as [->|Hne].
        -- eexists _, _, _. split; [|by eapply step_gender_field].
           exec. reflexivity.
        -- eexists _, _, _. split; [|by eapply step_gender_append].
           exec. reflexivity.
      * eexists _, _, []. split; [|by eapply step_known_no_gender].
        exec. by rewrite app_nil_r.
    + destruct (r !! "plural") as [p|] eqn:Hp.
      * destruct (decide (p = s)) as [->|Hps];
          [|destruct (m !! p) as [e|] eqn:Hmp].
        -- eexists _, _, _. split; [|eapply step_plural_collision; eauto].
           unfold created_entry, created_form, new_singular_entry.
           destruct (r !! "gender") eqn:Hg; exec; reflexivity.
        -- eexists _, _, _. split; [|eapply step_plural_collision; eauto].
           unfold created_entry, created_form, new_singular_entry.
           destruct (r !! "gender") eqn:Hg; exec; reflexivity.
        -- eexists _, _, _. split; [|by eapply step_plural_registered].
           unfold created_entry.
           destruct (r !! "gender") eqn:Hg; exec; reflexivity.
      * eexists _, _, _. split; [|by eapply step_singular_new].
        unfold created_entry. destruct (r !! "gender") eqn:Hg; exec; reflexivity.
  - destruct (r !! "plural") as [p|] eqn:Hp.
    + destruct (m !! p) as [e|] eqn:Hmp.
      * eexists _, _, _. split; [|by eapply step_plural_only_known].
        exec. reflexivity.
      * eexists _, _, _. split; [|by eapply step_plural_only_new].
        exec. reflexivity.
    + eexists _, _, []. split; [|by eapply step_ignored].
      exec. by rewrite app_nil_r.
Qed.

Lemma step_spec r σ :
  wf_store (nouns_formatted σ) →
  ∃ out m' tr, step r σ = (out, Machine m' (visited σ ++ tr)) ∧
               step_rel r (nouns_formatted σ) out m' tr.
Proof. destruct σ as [m v]. apply step_sound. Qed.

Lemma wf_store_empty : wf_store ∅.
Proof. apply map_Forall_empty. Qed.

Lemma wf_new_plural_entry : wf_entry new_plural_entry.
Proof. split; [by eexists|done]. Qed.

Lemma wf_created_entry r : wf_entry (created_entry r).
Proof.
  split; [rewrite created_entry_form; by eexists|].
  unfold created_entry. by destruct (r !! "gender").
Qed.

Lemma wf_entry_insert f v e :
  f ≠ "gender" → wf_entry e → wf_entry (<[f := v]> e).
Proof.
  intros Hf [[x Hx] Hg]. split.
  - rewrite lookup_insert. case_decide; by eexists.
  - by rewrite lookup_insert_ne.
Qed.

Lemma step_rel_wf r m out m' tr :
  wf_store m → step_rel r m out m' tr → wf_store m'.
Proof.
  intros Hwf Hstep. destruct Hstep; try done;
    repeat apply map_Forall_insert_2; try done;
    repeat apply wf_entry_insert; try done;
    auto using wf_new_plural_entry, wf_created_entry.
  by apply (Hwf s e).
Qed.

Lemma step_rel_dom_mono r m out m' tr :
  step_rel r m out m' tr → dom m ⊆ dom m'.
Proof.
  destruct 1; rewrite ?dom_insert_L; try done;
    repeat apply union_subseteq_r'; done.
Qed.

Lemma step_rel_dom_bound r m out m' tr k :
  step_rel r m out m' tr → k ∈ dom m' → k ∈ dom m ∨ mentions r k.
Proof.
  unfold mentions.
  destruct 1; rewrite ?dom_insert_L, ?elem_of_union, ?elem_of_singleton;
    intros Hk; repeat (destruct Hk as [Hk|Hk]); subst; auto.
Qed.

Lemma step_rel_singular r m out m' tr s :
  step_rel r m out m' tr → r !! "singular" = Some s → s ∈ dom m'.
Proof.
  destruct 1; intros Hs; simplify_eq;
    rewrite ?dom_insert_L, ?elem_of_union, ?elem_of_singleton, ?elem_of_dom;
    eauto.
Qed.

Lemma step_rel_plural r m m' tr p :
  step_rel r m (Ok ()) m' tr → r !! "plural" = Some p →
  (r !! "singular" = None ∨ ∃ s, r !! "singular" = Some s ∧ m !! s = None) →
  p ∈ dom m'.
Proof.
  intros Hstep Hp Hfresh.
  inversion Hstep; simplify_eq;
    rewrite ?dom_insert_L, ?elem_of_union, ?elem_of_singleton, ?elem_of_dom;
    auto; destruct Hfresh as [?|(s' & ? & ?)]; simplify_eq.
Qed.

Lemma step_rel_trace r m out m' tr :
  step_rel r m out m' tr → (GenderFieldSet ∉ tr) ∧ (PluralOnlyUpdate ∉ tr).
Proof.
  destruct 1; split; rewrite ?not_elem_of_cons; split_and?; try done;
    apply not_elem_of_nil.
Qed.

(** The test of line 104 is met on exactly one path. *)
Lemma step_rel_gender_test r m out m' tr :
  step_rel r m out m' tr →
  GenderFieldTest ∈ tr ↔
    ∃ s e g, r !! "singular" = Some s ∧ m !! s = Some e ∧
             r !! "gender" = Some g ∧ e !! "form" = Some g.
Proof.
  destruct 1; rewrite ?elem_of_cons, ?elem_of_nil;
    (split; [intros Hin|intros (s' & e' & g' & ? & ? & ? & ?)]);
    simplify_eq; try (destruct Hin as [Hin|Hin]; simplify_eq);
    try (destruct Hin as [Hin|Hin]; simplify_eq); try done.
  - by eexists _, _, _.
  - by left.
Qed.

Lemma step_rel_outcome r m out m' tr :
  step_rel r m out m' tr → out = Ok () ∨ out = Raise (KeyError "gender").
Proof. destruct 1; auto. Qed.

(** The store after a record whose singular is already a key. *)
Lemma step_known_singular r σ s e :
  wf_store (nouns_formatted σ) →
  r !! "singular" = Some s → nouns_formatted σ !! s = Some e →
  nouns_formatted (step r σ).2 =
    match r !! "gender", e !! "form" with
    | Some g, Some f =>
        if decide (f = g) then nouns_formatted σ
        else <[s := <["form" := f ++ "/" ++ map_genders g]> e]>
               (nouns_formatted σ)
    | _, _ => nouns_formatted σ
    end.
Proof.
  intros Hwf Hs He.
  destruct (step_spec r σ Hwf) as (o & m' & tr & Hstep & Hrel).
  rewrite Hstep. cbn.
  destruct Hrel as [| | |s0 e0 Hs0 He0 Hg|s0 e0 g f Hs0 He0 Hg Hf Hne
                    |s0 e0 g Hs0 He0 Hg Hf Hgen| | |];
    simplify_eq.
  - by rewrite Hg.
  - by rewrite Hg, Hf, decide_False.
  - by rewrite Hg, Hf, decide_True.
Qed.

(** ** The loop *)

Lemma merge_loop_cons r l σ :
  merge_loop (r :: l) σ =
    match step r σ with
    | (Ok _, σ') => merge_loop l σ'
    | (Raise e, σ') => (Raise e, σ')
    end.
Proof. reflexivity. Qed.

Lemma merge_loop_app l1 l2 σ :
  merge_loop (l1 ++ l2) σ =
    match merge_loop l1 σ with
    | (Ok _, σ') => merge_loop l2 σ'
    | (Raise e, σ') => (Raise e, σ')
    end.
Proof.
  revert σ. induction l1 as [|r l1 IH]; intros σ; [done|].
  rewrite <- app_comm_cons, !merge_loop_cons.
  by destruct (step r σ) as [[[]|e] σ'].
Qed.

(** What holds of the machine after the loop, however the loop ends. *)
Lemma merge_loop_invariant l σ out σ' :
  wf_store (nouns_formatted σ) →
  merge_loop l σ = (out, σ') →
  wf_store (nouns_formatted σ') ∧
  dom (nouns_formatted σ) ⊆ dom (nouns_formatted σ') ∧
  (∀ k, k ∈ dom (nouns_formatted σ') →
        k ∈ dom (nouns_formatted σ) ∨ ∃ r, r ∈ l ∧ mentions r k) ∧
  (∀ b, b = GenderFieldSet ∨ b = PluralOnlyUpdate →
        b ∈ visited σ' → b ∈ visited σ).
Proof.
  revert σ. induction l as [|r l IH]; intros σ Hwf Hrun.
  - injection Hrun as <- <-. split_and!; [done..| |done]. by left.
  - rewrite merge_loop_cons in Hrun.
    destruct (step_spec r σ Hwf) as (o & m1 & tr & Hstep & Hrel).
    rewrite Hstep in Hrun.
    pose proof (step_rel_wf _ _ _ _ _ Hwf Hrel) as Hwf1.
    pose proof (step_rel_dom_mono _ _ _ _ _ Hrel) as Hmono.
    pose proof (step_rel_trace _ _ _ _ _ Hrel) as [Ht1 Ht2].
    assert (∀ b, b = GenderFieldSet ∨ b = PluralOnlyUpdate →
                 b ∈ (visited σ ++ tr)%list → b ∈ visited σ) as Hvis.
    { intros b Hb. rewrite elem_of_app. intros [?|?]; [done|].
      destruct Hb; subst; done. }
    assert (∀ k, k ∈ dom m1 →
              k ∈ dom (nouns_formatted σ) ∨ ∃ r0, r0 ∈ r :: l ∧ mentions r0 k)
      as Hbound.
    { intros k Hk.
      destruct (step_rel_dom_bound _ _ _ _ _ k Hrel Hk); [by left|right].
      exists r. split; [left|done]. }
    destruct o as [[]|e].
    + destruct (IH (Machine m1 _) Hwf1 Hrun) as (Hwf' & Hd1 & Hd2 & Hv).
      cbn in *. split_and!; [done|by etrans| |by eauto].
      intros k Hk. destruct (Hd2 k Hk) as [Hk1|(r0 & Hr0 & Hm)]; [by eauto|].
      right. exists r0. split; [by right|done].
    + injection Hrun as <- <-. cbn. by split_and!.
Qed.

Lemma merge_loop_outcome l σ :
  wf_store (nouns_formatted σ) →
  (merge_loop l σ).1 = Ok () ∨ (merge_loop l σ).1 = Raise (KeyError "gender").
Proof.
  revert σ. induction l as [|r l IH]; intros σ Hwf; [by left|].
  rewrite merge_loop_cons.
  destruct (step_spec r σ Hwf) as (o & m1 & tr & Hstep & Hrel).
  rewrite Hstep.
  destruct (step_rel_outcome _ _ _ _ _ Hrel) as [-> | ->]; [|by right].
  apply (IH (Machine m1 _)). by eapply step_rel_wf.
Qed.

(** Every singular of a record the loop has processed is a key. *)
Lemma merge_loop_singular l σ σ' r s :
  wf_store (nouns_formatted σ) →
  merge_loop l σ = (Ok (), σ') →
  r ∈ l → r !! "singular" = Some s → s ∈ dom (nouns_formatted σ').
Proof.
  revert σ. induction l as [|r0 l IH]; intros σ Hwf Hrun Hin Hs.
  - by apply elem_of_nil in Hin.
  - rewrite merge_loop_cons in Hrun.
    destruct (step_spec r0 σ Hwf) as (o & m1 & tr & Hstep & Hrel).
    rewrite Hstep in Hrun. destruct o as [[]|e]; [|done].
    pose proof (step_rel_wf _ _ _ _ _ Hwf Hrel) as Hwf1.
    apply elem_of_cons in Hin as [->|Hin].
    + destruct (merge_loop_invariant _ (Machine m1 _) _ _ Hwf1 Hrun)
        as (_ & Hd & _).
      apply Hd. cbn. by eapply step_rel_singular.
    + by eapply (IH (Machine m1 _) Hwf1 Hrun).
Qed.

(** The plural of a record is registered when the record has no singular,
    or a singular that is not yet a key at that point of the loop. *)
Lemma merge_loop_plural l1 r l2 σ' p :
  merge_loop (l1 ++ r :: l2) initial = (Ok (), σ') →
  r !! "plural" = Some p →
  (r !! "singular" = None ∨
   ∃ s, r !! "singular" = Some s ∧
        s ∉ dom (nouns_formatted (merge_loop l1 initial).2)) →
  p ∈ dom (nouns_formatted σ').
Proof.
  intros Hrun Hp Hfresh. rewrite merge_loop_app in Hrun.
  destruct (merge_loop l1 initial) as [o1 σ1] eqn:H1.
  destruct (merge_loop_invariant _ initial _ _ wf_store_empty H1)
    as (Hwf1 & _).
  destruct o1 as [[]|e]; [|done].
  rewrite merge_loop_cons in Hrun.
  destruct (step_spec r σ1 Hwf1) as (o & m2 & tr & Hstep & Hrel).
  rewrite Hstep in Hrun. destruct o as [[]|e]; [|done].
  pose proof (step_rel_wf _ _ _ _ _ Hwf1 Hrel) as Hwf2.
  destruct (merge_loop_invariant _ (Machine m2 _) _ _ Hwf2 Hrun)
    as (_ & Hd & _).
  apply Hd. cbn. eapply step_rel_plural; [done..|].
  destruct Hfresh as [?|(s & Hs & Hns)]; [by left|right].
  exists s. split; [done|]. cbn in Hns. by apply not_elem_of_dom.
Qed.

(** ** The normalisation pass and the sort *)

Lemma normalise_entry_frame k σ :
  dom (nouns_formatted (normalise_entry k σ).2) = dom (nouns_formatted σ) ∧
  visited (normalise_entry k σ).2 = visited σ.
Proof.
  destruct σ as [m v].
  destruct (m !! k) as [e|] eqn:Hk; [destruct (e !! "form") eqn:Hf|];
    exec; try done.
  split; [|done]. rewrite dom_insert_L.
  apply elem_of_dom_2 in Hk.
  apply subseteq_union_1_L. by apply singleton_subseteq_l.
Qed.

Lemma for_each_frame {A} (body : A → M ()) (l : list A) σ :
  (∀ x σ0, dom (nouns_formatted (body x σ0).2) = dom (nouns_formatted σ0) ∧
           visited (body x σ0).2 = visited σ0) →
  dom (nouns_formatted (for_each l body σ).2) = dom (nouns_formatted σ) ∧
  visited (for_each l body σ).2 = visited σ.
Proof.
  intros Hbody. revert σ. induction l as [|x l IH]; intros σ; [done|].
  cbn [for_each]. unfold mbind, M_bind.
  destruct (Hbody x σ) as [Hd Hv].
  destruct (body x σ) as [[[]|e] σ1]; cbn in *; [|done].
  destruct (IH σ1) as [Hd1 Hv1]. split; congruence.
Qed.

Lemma normalise_frame σ :
  dom (nouns_formatted (normalise σ).2) = dom (nouns_formatted σ) ∧
  visited (normalise σ).2 = visited σ.
Proof.
  unfold normalise, get_nouns, mbind, M_bind.
  apply for_each_frame, normalise_entry_frame.
Qed.

Lemma normalise_entry_Ok k m v e :
  wf_store m → m !! k = Some e →
  ∃ f, e !! "form" = Some f ∧
       normalise_entry k (Machine m v) =
         (Ok (), Machine (<[k := <["form" := order_annotations f]> e]> m) v).
Proof.
  intros Hwf Hk. destruct (Hwf k e Hk) as [[f Hf] _].
  exists f. split; [done|]. by exec.
Qed.

Lemma for_each_normalise_Ok ks m v :
  wf_store m → (∀ k, k ∈ ks → k ∈ dom m) →
  ∃ m', for_each ks normalise_entry (Machine m v) = (Ok (), Machine m' v).
Proof.
  revert m. induction ks as [|k ks IH]; intros m Hwf Hks; [by eexists|].
  assert (k ∈ dom m) as [e He]%elem_of_dom by (apply Hks; left).
  destruct (normalise_entry_Ok k m v e Hwf He) as (f & Hf & Hrun).
  cbn [for_each]. unfold mbind, M_bind. rewrite Hrun.
  apply IH.
  - apply map_Forall_insert_2; [|done].
    apply wf_entry_insert; [done|]. by apply (Hwf k e).
  - intros k' Hk'. rewrite dom_insert_L. apply elem_of_union_r, Hks.
    by right.
Qed.

(** On a well-formed store the normalisation pass completes. *)
Lemma normalise_Ok σ :
  wf_store (nouns_formatted σ) → (normalise σ).1 = Ok ().
Proof.
  destruct σ as [m v]. intros Hwf.
  unfold normalise, get_nouns, mbind, M_bind. cbn [nouns_formatted] in *.
  destruct (for_each_normalise_Ok (map_to_list m).*1 m v Hwf) as [m' ->];
    [|done].
  intros k Hk. apply list_elem_of_fmap in Hk as ([k' e] & -> & He).
  apply elem_of_map_to_list in He. by apply elem_of_dom_2 in He.
Qed.

Lemma sorted_items_keys m : (sorted_items m).*1 ≡ₚ (map_to_list m).*1.
Proof. unfold sorted_items. by rewrite merge_sort_Permutation. Qed.

Lemma sorted_items_NoDup m : NoDup (sorted_items m).*1.
Proof. rewrite sorted_items_keys. apply NoDup_fst_map_to_list. Qed.

Lemma sorted_items_elem m k : k ∈ (sorted_items m).*1 ↔ k ∈ dom m.
Proof.
  rewrite sorted_items_keys, elem_of_dom, list_elem_of_fmap. split.
  - intros ([k' e] & -> & He). apply elem_of_map_to_list in He. by eexists.
  - intros [e He]. exists (k, e). split; [done|].
    by apply elem_of_map_to_list.
Qed.

(** When the script completes, the keys of its output are the keys the
    merge loop has built, each of them once. *)
Lemma run_Ok l out :
  run l = Ok out →
  ∃ σ, merge_loop l initial = (Ok (), σ) ∧
       NoDup out.*1 ∧ ∀ k, k ∈ out.*1 ↔ k ∈ dom (nouns_formatted σ).
Proof.
  unfold run, format_nouns, mbind, M_bind.
  destruct (merge_loop l initial) as [[[]|e] σ1] eqn:H1; [|done].
  pose proof (normalise_frame σ1) as [Hd _].
  destruct (normalise σ1) as [[[]|e] σ2]; [|done].
  cbn. intros [= <-]. exists σ1. split; [done|]. split.
  - apply sorted_items_NoDup.
  - intros k. by rewrite sorted_items_elem, <- Hd.
Qed.

Lemma format_nouns_visited l :
  visited (format_nouns l initial).2 = visited (merge_loop l initial).2.
Proof.
  unfold format_nouns, mbind, M_bind.
  destruct (merge_loop l initial) as [[[]|e] σ1]; [|done].
  pose proof (normalise_frame σ1) as [_ Hv].
  by destruct (normalise σ1) as [[[]|e] σ2].
Qed.

(** The script either completes or stops with the [KeyError] of line 104. *)
Lemma run_outcome l :
  (∃ out, run l = Ok out) ∨ run l = Raise (KeyError "gender").
Proof.
  unfold run, format_nouns, mbind, M_bind.
  pose proof (merge_loop_outcome l initial wf_store_empty) as Hout.
  destruct (merge_loop l initial) as [o σ1] eqn:H1.
  destruct (merge_loop_invariant l initial _ _ wf_store_empty H1) as (Hwf & _).
  cbn in Hout. destruct Hout as [-> | ->]; [|by right].
  pose proof (normalise_Ok σ1 Hwf) as Hn.
  destruct (normalise σ1) as [o2 σ2]. cbn in Hn. subst o2.
  left. by eexists.
Qed.

(** ** The claims about the merge engine *)

(** C1, as the specification states it, fails: the plural of a record
    whose singular is already a key is not registered.  Here the second
    plural of "ciel" is missing from the output. *)
Lemma plural_of_known_singular_omitted :
  ∃ out r,
    run ciel_input = Ok out ∧
    r ∈ ciel_input ∧ r !! "plural" = Some "ciels" ∧ "ciels" ∉ out.*1.
Proof.
  exists [ ("ciel", {[ "plural" := "cieux"; "form" := "M" ]});
           ("cieux", new_plural_entry) ],
         {[ "singular" := "ciel"; "plural" := "ciels"; "gender" := "masculine" ]}.
  split; [vm_compute; reflexivity|]. split; [|split].
  - unfold ciel_input. rewrite !elem_of_cons. tauto.
  - vm_compute. reflexivity.
  - cbn. rewrite !elem_of_cons, elem_of_nil. intros [?|[?|?]]; done.
Qed.

(** C1, amended: when the script completes, every key of the output is
    the singular or plural value of an input record and occurs once among
    the keys; every singular value of the input is a key; and the plural
    value of a record is a key whenever the record has no singular, or a
    singular that is not yet a key when the record is processed. *)
Theorem output_keys_are_wordforms
    (l : list record) (out : list (string * entry)) :
  run l = Ok out →
  NoDup out.*1 ∧
  (∀ k, k ∈ out.*1 → ∃ r, r ∈ l ∧ mentions r k) ∧
  (∀ r s, r ∈ l → r !! "singular" = Some s → s ∈ out.*1) ∧
  (∀ l1 r l2 p,
     l = (l1 ++ r :: l2)%list → r !! "plural" = Some p →
     (r !! "singular" = None ∨
      ∃ s, r !! "singular" = Some s ∧
           s ∉ dom (nouns_formatted (run_merge l1).2)) →
     p ∈ out.*1).
Proof.
  intros Hrun. destruct (run_Ok l out Hrun) as (σ & Hmerge & Hnd & Hkeys).
  destruct (merge_loop_invariant l initial _ _ wf_store_empty Hmerge)
    as (_ & _ & Hbound & _).
  split_and!; [done|..].
  - intros k Hk. apply Hkeys, Hbound in Hk as [Hk|Hk]; [|done].
    cbn in Hk. by rewrite dom_empty_L in Hk.
  - intros r s Hr Hs. apply Hkeys.
    by eapply (merge_loop_singular l initial); [apply wf_store_empty|..].
  - intros l1 r l2 p -> Hp Hfresh. apply Hkeys.
    by eapply merge_loop_plural.
Qed.

Lemma output_keys_are_wordforms_witness :
  ∃ out, run ciel_input = Ok out ∧ NoDup out.*1 ∧ "cieux" ∈ out.*1.
Proof.
  eexists. split; [vm_compute; reflexivity|].
  destruct (output_keys_are_wordforms ciel_input _ eq_refl)
    as (Hnd & _ & _ & Hpl).
  split; [exact Hnd|].
  apply (Hpl [] _ (tail ciel_input) "cieux" eq_refl eq_refl).
  right. exists "ciel". split; [reflexivity|].
  vm_compute. discriminate.
Defined.

(** C2: the engine is meant never to raise, but on [chat_input] the test at
    line 104 reads the [gender] field of an entry, which no entry has, and
    the script stops with [KeyError]. *)
Theorem merge_raises_KeyError :
  run chat_input = Raise (KeyError "gender").
Proof. vm_compute. reflexivity. Qed.

(** C3, as the specification states it, fails: on [chat_input] the stored
    form equals the raw gender of the second record and the branch is
    entered. *)
Lemma gender_field_test_reached :
  GenderFieldTest ∈ visited (run_merge chat_input).2.
Proof.
  assert (visited (run_merge chat_input).2 = [SingularNew; GenderFieldTest])
    as -> by (vm_compute; reflexivity).
  rewrite !elem_of_cons. tauto.
Qed.

(** C3, amended: the body of that branch (lines 105-107), which writes the
    [gender] field of an entry, is never run, whatever the input, and no
    entry of the mapping ever has a [gender] field; the test of the branch
    (line 104) is met exactly when the singular of the record is already a
    key, the record has a gender, and the stored form of the entry equals
    that raw gender. *)
Theorem gender_field_never_written (l : list record) :
  (GenderFieldSet ∉ visited (format_nouns l initial).2) ∧
  (∀ k e, nouns_formatted (run_merge l).2 !! k = Some e →
          e !! "gender" = None) ∧
  (∀ r, let m := nouns_formatted (run_merge l).2 in
        GenderFieldTest ∈ visited (step r (Machine m [])).2 ↔
          ∃ s e g, r !! "singular" = Some s ∧ m !! s = Some e ∧
                   r !! "gender" = Some g ∧ e !! "form" = Some g).
Proof.
  unfold run_merge. rewrite format_nouns_visited.
  destruct (merge_loop l initial) as [o σ] eqn:Hrun.
  destruct (merge_loop_invariant l initial _ _ wf_store_empty Hrun)
    as (Hwf & _ & _ & Hv).
  split_and!.
  - intros Hin. apply Hv in Hin; [|by left]. cbn in Hin.
    by apply elem_of_nil in Hin.
  - intros k e Hk. by destruct (Hwf k e Hk).
  - intros r. cbv zeta. cbn [snd].
    destruct (step_sound r (nouns_formatted σ) [] Hwf)
      as (out & m' & tr & -> & Hrel).
    cbn. by apply (step_rel_gender_test r _ out m').
Qed.

Lemma gender_field_never_written_witness :
  nouns_formatted (run_merge chat_input).2 !! "chat"
    = Some {[ "plural" := ""; "form" := "M" ]} ∧
  ({[ "plural" := ""; "form" := "M" ]} : entry) !! "gender" = None.
Proof.
  assert (nouns_formatted (run_merge chat_input).2 !! "chat"
            = Some {[ "plural" := ""; "form" := "M" ]}) as Hk
    by (vm_compute; reflexivity).
  split; [exact Hk|].
  exact (proj1 (proj2 (gender_field_never_written chat_input)) "chat" _ Hk).
Defined.

(** C4: the update branch of the plural-only case (lines 116-119) is dead:
    no input makes the script enter it, and a record with a plural and no
    singular whose plural is already a key leaves the mapping as it is. *)
Theorem plural_only_update_dead :
  (∀ l, PluralOnlyUpdate ∉ visited (format_nouns l initial).2) ∧
  (∀ σ r p,
     r !! "singular" = None → r !! "plural" = Some p →
     is_Some (nouns_formatted σ !! p) →
     (step r σ).1 = Ok () ∧ nouns_formatted (step r σ).2 = nouns_formatted σ).
Proof.
  split.
  - intros l. rewrite format_nouns_visited.
    destruct (merge_loop l initial) as [o σ] eqn:Hrun.
    destruct (merge_loop_invariant l initial _ _ wf_store_empty Hrun)
      as (_ & _ & _ & Hv).
    intros Hin. apply Hv in Hin; [|by right]. cbn in Hin.
    by apply elem_of_nil in Hin.
  - intros [m v] r p Hs Hp [e He]. cbn in He. by exec.
Qed.

Lemma plural_only_update_dead_witness :
  let σ := (run_merge [ {[ "plural" := "gens" ]} ]).2 in
  let r : record := {[ "plural" := "gens" ]} in
  (step r σ).1 = Ok () ∧ nouns_formatted (step r σ).2 = nouns_formatted σ.
Proof.
  intros σ r.
  apply (proj2 plural_only_update_dead σ r "gens").
  - reflexivity.
  - reflexivity.
  - vm_compute. eexists. reflexivity.
Defined.

(** C8: on scenario A the whole transform gives the entry of "chat"
    followed by the entry of "chats". *)
Theorem scenario_A_output :
  run scenario_A =
    Ok [ ("chat", {[ "plural" := "chats"; "form" := "M" ]});
         ("chats", {[ "plural" := "isPlural"; "form" := "PL" ]}) ].
Proof. vm_compute. reflexivity. Qed.

(** C9: on scenario C the first record creates the entry of "table" with
    form "F", the second record takes the appending branch, and after the
    normalisation pass the form is "F/M". *)
Theorem scenario_C_output :
  nouns_formatted (run_merge (take 1 scenario_C)).2 =
    {[ "table" := {[ "plural" := ""; "form" := "F" ]} ]} ∧
  visited (run_merge scenario_C).2 = [SingularNew; GenderAppend] ∧
  run scenario_C = Ok [ ("table", {[ "plural" := ""; "form" := "F/M" ]}) ].
Proof. split_and!; vm_compute; reflexivity. Qed.

(** C10: a record whose singular is already a key of the mapping the loop
    has built changes at most the [form] field of that entry: the keys,
    the other entries and the other fields of the entry stay as they are;
    the plural of the record plays no part; and without a gender the
    mapping is unchanged. *)
Theorem known_singular_frame
    (l : list record) (σ : machine) (r : record) (s : string) :
  run_merge l = (Ok (), σ) →
  r !! "singular" = Some s → s ∈ dom (nouns_formatted σ) →
  let m := nouns_formatted σ in
  let m' := nouns_formatted (step r σ).2 in
  dom m' = dom m ∧
  (∀ k, k ≠ s → m' !! k = m !! k) ∧
  (∃ e e', m !! s = Some e ∧ m' !! s = Some e' ∧
           ∀ f, f ≠ "form" → e' !! f = e !! f) ∧
  m' = nouns_formatted (step (delete "plural" r) σ).2 ∧
  (r !! "gender" = None → m' = m).
Proof.
  intros Hrun Hs Hin m m'.
  destruct (merge_loop_invariant l initial _ _ wf_store_empty Hrun)
    as (Hwf & _).
  apply elem_of_dom in Hin as [e He].
  assert (m' = nouns_formatted (step (delete "plural" r) σ).2) as Hdel.
  { subst m'. rewrite (step_known_singular r σ s e) by done.
    rewrite (step_known_singular (delete "plural" r) σ s e); [|done| |done].
    - by rewrite lookup_delete_ne.
    - by rewrite lookup_delete_ne. }
  rewrite <- Hdel. subst m'. rewrite (step_known_singular r σ s e) by done.
  fold m in He |- *.
  destruct (r !! "gender") as [g|] eqn:Hg;
    [destruct (e !! "form") as [f|] eqn:Hf; [destruct (decide (f = g))|]|];
    try (split_and!; [done|done|by exists e, e|done|done]).
  split_and!; [| | |done|done].
  - rewrite dom_insert_L. apply elem_of_dom_2 in He.
    apply subseteq_union_1_L. by apply singleton_subseteq_l.
  - intros k Hk. by rewrite lookup_insert_ne.
  - eexists e, _. split; [done|]. split; [by rewrite lookup_insert_eq|].
    intros f0 Hf0. by rewrite lookup_insert_ne.
Qed.

Lemma known_singular_frame_witness :
  let l : list record := [ {[ "singular" := "table"; "gender" := "feminine" ]} ] in
  let r : record := {[ "singular" := "table"; "plural" := "tables" ]} in
  let σ := (run_merge l).2 in
  nouns_formatted (step r σ).2 = nouns_formatted σ.
Proof.
  intros l r σ.
  apply (known_singular_frame l σ r "table").
  - reflexivity.
  - reflexivity.
  - vm_compute. reflexivity.
  - reflexivity.
Defined.

(** * Further properties of the noun formatter *)

(** ** The normalisation pass, exactly *)

Lemma for_each_normalise ks m v :
  wf_store m → NoDup ks → (∀ k, k ∈ ks → k ∈ dom m) →
  ∃ m', for_each ks normalise_entry (Machine m v) = (Ok (), Machine m' v) ∧
        ∀ k, m' !! k = if decide (k ∈ ks) then normalise_fields <$> m !! k
                       else m !! k.
Proof.
  revert m. induction ks as [|k ks IH]; intros m Hwf Hnd Hks.
  - exists m. split; [done|]. intros k. by rewrite decide_False by apply not_elem_of_nil.
  - apply NoDup_cons in Hnd as [Hk Hnd].
    assert (k ∈ dom m) as [e He]%elem_of_dom by (apply Hks; left).
    destruct (normalise_entry_Ok k m v e Hwf He) as (f & Hf & Hrun).
    destruct (IH (<[k := <["form" := order_annotations f]> e]> m)) as (m' & Hfor & Hm').
    + apply map_Forall_insert_2; [|done].
      apply wf_entry_insert; [done|]. by apply (Hwf k e).
    + done.
    + intros k' Hk'. rewrite dom_insert_L. apply elem_of_union_r, Hks.
      by right.
    + exists m'. split.
      * cbn [for_each]. unfold mbind, M_bind. by rewrite Hrun.
      * intros j. rewrite Hm'. destruct (decide (j = k)) as [->|Hjk].
        -- rewrite decide_False by done. rewrite decide_True by left.
           rewrite lookup_insert_eq, He. cbn. unfold normalise_fields.
           by rewrite Hf.
        -- rewrite lookup_insert_ne by done.
           destruct (decide (j ∈ ks)) as [Hj|Hj].
           ++ by rewrite decide_True by (by right).
           ++ rewrite decide_False; [done|].
              rewrite elem_of_cons. tauto.
Qed.

(** The normalisation pass applies [order_annotations] to the form of every
    entry and changes nothing else. *)
Lemma normalise_spec m v :
  wf_store m →
  normalise (Machine m v) = (Ok (), Machine (normalise_fields <$> m) v).
Proof.
  intros Hwf. unfold normalise, get_nouns, mbind, M_bind.
  cbn [nouns_formatted].
  destruct (for_each_normalise (map_to_list m).*1 m v Hwf) as (m' & -> & Hm').
  - apply NoDup_fst_map_to_list.
  - intros k Hk. apply list_elem_of_fmap in Hk as ([k' e] & -> & He).
    apply elem_of_map_to_list in He. by apply elem_of_dom_2 in He.
  - do 2 f_equal. apply map_eq. intros k. rewrite Hm', lookup_fmap.
    case_decide as Hk; [done|].
    destruct (m !! k) as [e|] eqn:He; [|done].
    exfalso. apply Hk. apply list_elem_of_fmap. exists (k, e).
    split; [done|]. by apply elem_of_map_to_list.
Qed.

Lemma run_spec l :
  run l =
    match run_merge l with
    | (Ok _, σ) => Ok (sorted_items (normalise_fields <$> nouns_formatted σ))
    | (Raise e, _) => Raise e
    end.
Proof.
  unfold run, run_merge, format_nouns, mbind, M_bind.
  destruct (merge_loop l initial) as [o σ1] eqn:H1.
  destruct (merge_loop_invariant l initial _ _ wf_store_empty H1) as (Hwf & _).
  destruct o as [[]|e]; [|done].
  destruct σ1 as [m v]. by rewrite normalise_spec.
Qed.

Lemma elem_of_sorted_items m k e :
  (k, e) ∈ sorted_items m ↔ m !! k = Some e.
Proof.
  unfold sorted_items. rewrite merge_sort_Permutation.
  apply elem_of_map_to_list.
Qed.

(** ** The pieces of a form *)

Lemma split_not_nil c s : split c s ≠ [].
Proof.
  destruct s as [|a s]; cbn -[Ascii.eqb]; [done|].
  destruct (Ascii.eqb a c); [done|]. by destruct (split c s).
Qed.

(** Splitting distributes over a separator put between two strings. *)
Lemma split_app c f g :
  split c (f ++ String c g) = (split c f ++ split c g)%list.
Proof.
  induction f as [|a f IH]; rewrite ?append_nil_l, ?append_cons;
    cbn -[Ascii.eqb].
  - by rewrite Ascii.eqb_refl.
  - rewrite IH. destruct (Ascii.eqb a c); [done|].
    pose proof (split_not_nil c f). by destruct (split c f).
Qed.

Lemma annotation_pieces_app f g :
  annotation_pieces f → annotation_pieces g →
  annotation_pieces (f ++ "/" ++ g).
Proof.
  unfold annotation_pieces. intros Hf Hg.
  rewrite append_cons, append_nil_l, split_app. by apply Forall_app.
Qed.

Lemma map_genders_cases g :
  map_genders g = "M" ∨ map_genders g = "F" ∨ map_genders g = "".
Proof. unfold map_genders. repeat case_decide; auto. Qed.

Lemma annotation_pieces_atom t :
  t ∈ [""; "M"; "F"; "PL"] → annotation_pieces t.
Proof.
  rewrite !elem_of_cons, elem_of_nil. unfold annotation_pieces.
  intros [->|[->|[->|[->|[]]]]]; cbn; repeat constructor;
    rewrite !elem_of_cons; tauto.
Qed.

Lemma annotation_pieces_map_genders g : annotation_pieces (map_genders g).
Proof.
  apply annotation_pieces_atom. rewrite !elem_of_cons.
  destruct (map_genders_cases g) as [->|[->| ->]]; tauto.
Qed.

Lemma annotation_pieces_created_form r : annotation_pieces (created_form r).
Proof.
  unfold created_form. destruct (r !! "gender").
  - apply annotation_pieces_map_genders.
  - apply annotation_pieces_atom. left.
Qed.

(** ** The shape of the entries *)

Lemma good_entry_insert_form e v :
  good_entry e → annotation_pieces v → good_entry (<["form" := v]> e).
Proof.
  intros [Hd _] Hv. split.
  - rewrite dom_insert_L, Hd. unfold entry_fields. set_solver.
  - exists v. by rewrite lookup_insert_eq.
Qed.

Lemma good_entry_insert_plural e v :
  good_entry e → good_entry (<["plural" := v]> e).
Proof.
  intros [Hd (f & Hf & Hp)]. split.
  - rewrite dom_insert_L, Hd. unfold entry_fields. set_solver.
  - exists f. by rewrite lookup_insert_ne.
Qed.

Lemma good_new_singular_entry : good_entry new_singular_entry.
Proof.
  split.
  - unfold new_singular_entry. by rewrite dom_insert_L, dom_singleton_L.
  - exists "". split; [done|]. apply annotation_pieces_atom. left.
Qed.

Lemma good_new_plural_entry : good_entry new_plural_entry.
Proof.
  split.
  - unfold new_plural_entry. by rewrite dom_insert_L, dom_singleton_L.
  - exists "PL". split; [done|]. apply annotation_pieces_atom.
    rewrite !elem_of_cons. tauto.
Qed.

Lemma good_created_entry r : good_entry (created_entry r).
Proof.
  unfold created_entry. destruct (r !! "gender").
  - apply good_entry_insert_form; [apply good_new_singular_entry|].
    apply annotation_pieces_map_genders.
  - apply good_new_singular_entry.
Qed.

Lemma good_entry_wf e : good_entry e → wf_entry e.
Proof.
  intros [Hd (f & Hf & _)]. split; [by eexists|].
  apply not_elem_of_dom. rewrite Hd. unfold entry_fields.
  rewrite elem_of_union, !elem_of_singleton. intros [?|?]; done.
Qed.

Lemma good_store_wf m : good_store m → wf_store m.
Proof. intros Hg k e He. apply good_entry_wf. by apply (Hg k e). Qed.

Lemma step_rel_good r m out m' tr :
  good_store m → step_rel r m out m' tr → good_store m'.
Proof.
  intros Hg Hstep. destruct Hstep; try done;
    repeat apply map_Forall_insert_2; try done;
    auto using good_new_plural_entry, good_created_entry,
      good_entry_insert_plural.
  - apply good_entry_insert_form.
    + apply good_entry_insert_plural, good_created_entry.
    + apply annotation_pieces_app; [apply annotation_pieces_created_form|].
      apply annotation_pieces_atom. rewrite !elem_of_cons. tauto.
  - destruct (Hg s e) as [Hd (f' & Hf' & Hp)]; [done|]. simplify_eq.
    apply good_entry_insert_form; [by apply (Hg s e)|].
    apply annotation_pieces_app; [done|apply annotation_pieces_map_genders].
Qed.

(** A property of stores kept by every path of the loop body is kept by
    the loop. *)
Lemma merge_loop_preserves (P : gmap string entry → Prop) :
  (∀ m, P m → wf_store m) →
  (∀ r m out m' tr, P m → step_rel r m out m' tr → P m') →
  ∀ l σ, P (nouns_formatted σ) → P (nouns_formatted (merge_loop l σ).2).
Proof.
  intros Hwf Hstep l. induction l as [|r l IH]; intros σ HP; [done|].
  rewrite merge_loop_cons.
  destruct (step_spec r σ (Hwf _ HP)) as (o & m1 & tr & -> & Hrel).
  destruct o as [[]|e]; cbn.
  - apply (IH (Machine m1 _)). by eapply Hstep.
  - by eapply Hstep.
Qed.

Lemma run_merge_good l : good_store (nouns_formatted (run_merge l).2).
Proof.
  apply (merge_loop_preserves good_store).
  - apply good_store_wf.
  - intros. by eapply step_rel_good.
  - apply map_Forall_empty.
Qed.

(** ** The eight normalised forms *)

Lemma sorted_list_unique (T L : list string) :
  StronglySorted str_le T → NoDup T → StronglySorted str_le L → NoDup L →
  (∀ x, x ∈ T ↔ x ∈ L) → T = L.
Proof.
  intros HT HnT HL HnL Hm.
  apply (StronglySorted_unique str_le); [done..|].
  by apply NoDup_Permutation.
Qed.

Lemma annotation_tokens_of_pieces f x :
  annotation_pieces f → x ∈ annotation_tokens (split "/" f) →
  x = "F" ∨ x = "M" ∨ x = "PL".
Proof.
  intros Hf [Hne Hx]%annotation_tokens_elem.
  unfold annotation_pieces in Hf. rewrite Forall_forall in Hf.
  apply Hf in Hx. rewrite !elem_of_cons, elem_of_nil in Hx. tauto.
Qed.

Ltac sorted_strings :=
  repeat first [ apply SSorted_nil | apply SSorted_cons
               | apply Forall_nil_2 | apply Forall_cons_2
               | reflexivity ].

Ltac nodup_strings :=
  repeat first [ apply NoDup_nil_2 | apply NoDup_cons_2 ];
  rewrite ?elem_of_cons, ?elem_of_nil; intuition discriminate.

(** One case of the enumeration below: the tokens are the list [L]. *)
Ltac canonical_case Huniq Hx L :=
  rewrite (Huniq L);
  [ cbn; rewrite !elem_of_cons; tauto
  | sorted_strings
  | nodup_strings
  | let x := fresh "x" in
    let Hin := fresh "Hin" in
    intros x; rewrite ?elem_of_cons, ?elem_of_nil; split;
    [ intros Hin; destruct (Hx _ Hin) as [->|[->| ->]]; tauto
    | intros Hin; repeat (destruct Hin as [Hin|Hin]); subst; done ] ].

Lemma order_annotations_canonical f :
  annotation_pieces f → order_annotations f ∈ canonical_forms.
Proof.
  intros Hf. rewrite order_annotations_unfold.
  unfold canonical_forms, single_annotations. case_decide as Hfast.
  - rewrite !elem_of_cons, elem_of_nil in Hfast. rewrite !elem_of_cons.
    tauto.
  - pose proof (annotation_tokens_sorted (split "/" f)) as Hs.
    pose proof (annotation_tokens_NoDup (split "/" f)) as Hn.
    pose proof (λ x, annotation_tokens_of_pieces f x Hf) as Hx.
    set (T := annotation_tokens (split "/" f)) in *.
    assert (∀ L, StronglySorted str_le L → NoDup L →
                 (∀ x, x ∈ T ↔ x ∈ L) → T = L) as Huniq
      by (intros L ???; by apply sorted_list_unique).
    destruct (decide ("F" ∈ T)) as [HF|HF];
      destruct (decide ("M" ∈ T)) as [HM|HM];
      destruct (decide ("PL" ∈ T)) as [HP|HP].
    + canonical_case Huniq Hx ["F"; "M"; "PL"].
    + canonical_case Huniq Hx ["F"; "M"].
    + canonical_case Huniq Hx ["F"; "PL"].
    + canonical_case Huniq Hx ["F"].
    + canonical_case Huniq Hx ["M"; "PL"].
    + canonical_case Huniq Hx ["M"].
    + canonical_case Huniq Hx ["PL"].
    + canonical_case Huniq Hx (@nil string).
Qed.

(** ** The output: fields, forms, order of the keys *)

Lemma run_Ok_inv l out :
  run l = Ok out →
  ∃ σ, run_merge l = (Ok (), σ) ∧
       out = sorted_items (normalise_fields <$> nouns_formatted σ).
Proof.
  rewrite run_spec. destruct (run_merge l) as [[[]|e] σ]; [|done].
  intros [= <-]. by exists σ.
Qed.

Lemma normalise_fields_good e :
  good_entry e →
  dom (normalise_fields e) = entry_fields ∧
  ∃ f, normalise_fields e !! "form" = Some f ∧ f ∈ canonical_forms.
Proof.
  intros [Hd (f & Hf & Hp)]. unfold normalise_fields. rewrite Hf. split.
  - rewrite dom_insert_L, Hd. unfold entry_fields.
    apply subseteq_union_1_L, singleton_subseteq_l.
    rewrite elem_of_union, !elem_of_singleton. by right.
  - exists (order_annotations f). rewrite lookup_insert_eq.
    split; [done|]. by apply order_annotations_canonical.
Qed.

(** X1: when the script completes, every entry of the output has exactly
    the two fields [plural] and [form], and its form is one of the eight
    normalised annotations. *)
Theorem output_entries_shape (l : list record) (out : list (string * entry)) :
  run l = Ok out →
  ∀ k e, (k, e) ∈ out →
    dom e = entry_fields ∧ ∃ f, e !! "form" = Some f ∧ f ∈ canonical_forms.
Proof.
  intros (σ & Hm & ->)%run_Ok_inv k e Hin.
  apply elem_of_sorted_items in Hin. rewrite lookup_fmap in Hin.
  destruct (nouns_formatted σ !! k) as [e0|] eqn:He0; [|done].
  injection Hin as <-. apply normalise_fields_good.
  pose proof (run_merge_good l) as Hg. rewrite Hm in Hg.
  by apply (Hg k e0).
Qed.

Lemma output_entries_shape_witness :
  run scenario_A = Ok scenario_A_result ∧
  dom ({[ "plural" := "chats"; "form" := "M" ]} : entry) = entry_fields ∧
  ∃ f, ({[ "plural" := "chats"; "form" := "M" ]} : entry) !! "form" = Some f ∧
       f ∈ canonical_forms.
Proof.
  assert (run scenario_A = Ok scenario_A_result) as Hrun
    by (vm_compute; reflexivity).
  split; [exact Hrun|].
  apply (output_entries_shape scenario_A scenario_A_result Hrun "chat").
  left.
Defined.

Lemma str_lt_of_le a b : str_le a b → a ≠ b → str_lt a b.
Proof. intros [?|?]%str_le_alt ?; done. Qed.

Lemma StronglySorted_strict (l : list string) :
  StronglySorted str_le l → NoDup l → StronglySorted str_lt l.
Proof.
  induction 1 as [|a l Hs IH Ha]; intros Hn; [constructor|].
  apply NoDup_cons in Hn as [Hal Hn]. constructor; [by apply IH|].
  rewrite Forall_forall in Ha |- *. intros b Hb.
  apply str_lt_of_le; [by apply Ha|]. by intros ->.
Qed.

#[global] Instance item_le_trans : Transitive item_le.
Proof. intros x y z. unfold item_le. apply str_le_trans. Qed.

#[global] Instance item_le_total : Total item_le.
Proof. intros x y. unfold item_le. apply str_le_total. Qed.

Lemma sorted_items_sorted m : StronglySorted str_lt (sorted_items m).*1.
Proof.
  apply StronglySorted_strict; [|apply sorted_items_NoDup].
  eapply StronglySorted_fmap;
    [|apply (StronglySorted_merge_sort item_le); apply _].
  by intros x y.
Qed.

(** X2: when the script completes, the keys of the output are in strictly
    increasing order. *)
Theorem output_sorted_by_key (l : list record) (out : list (string * entry)) :
  run l = Ok out → StronglySorted str_lt out.*1.
Proof. intros (σ & _ & ->)%run_Ok_inv. apply sorted_items_sorted. Qed.

Lemma output_sorted_by_key_witness :
  run scenario_A = Ok scenario_A_result ∧
  StronglySorted str_lt scenario_A_result.*1.
Proof.
  assert (run scenario_A = Ok scenario_A_result) as Hrun
    by (vm_compute; reflexivity).
  split; [exact Hrun|].
  exact (output_sorted_by_key scenario_A scenario_A_result Hrun).
Defined.

(** ** When the script raises *)

Lemma step_rel_raise r m out m' tr :
  step_rel r m out m' tr →
  out = Raise (KeyError "gender") ↔ gender_test_met r m.
Proof.
  intros Hrel. unfold gender_test_met.
  rewrite <- (step_rel_gender_test r m out m' tr Hrel).
  destruct Hrel; rewrite ?elem_of_cons, ?elem_of_nil;
    split; intros Hx; try done; repeat (destruct Hx as [Hx|Hx]; try done).
  by left.
Qed.

Lemma step_raise r σ :
  wf_store (nouns_formatted σ) →
  (step r σ).1 = Raise (KeyError "gender") ↔
  gender_test_met r (nouns_formatted σ).
Proof.
  intros Hwf. destruct (step_spec r σ Hwf) as (o & m1 & tr & -> & Hrel).
  by apply (step_rel_raise r _ o m1 tr).
Qed.

Lemma step_Ok_wf r σ σ' :
  wf_store (nouns_formatted σ) → step r σ = (Ok (), σ') →
  wf_store (nouns_formatted σ').
Proof.
  intros Hwf Hstep.
  destruct (step_spec r σ Hwf) as (o & m1 & tr & Hs & Hrel).
  rewrite Hs in Hstep. injection Hstep as -> <-. by eapply step_rel_wf.
Qed.

Lemma merge_loop_raises l σ :
  wf_store (nouns_formatted σ) →
  (merge_loop l σ).1 = Raise (KeyError "gender") ↔
  ∃ l1 r l2 σ1, l = (l1 ++ r :: l2)%list ∧ merge_loop l1 σ = (Ok (), σ1) ∧
                gender_test_met r (nouns_formatted σ1).
Proof.
  revert σ. induction l as [|r l IH]; intros σ Hwf.
  - split; [done|]. intros (l1 & r & l2 & ? & Hl & _).
    by destruct l1.
  - rewrite merge_loop_cons.
    pose proof (step_raise r σ Hwf) as Hraise.
    destruct (step r σ) as [[[]|e] σ'] eqn:Hstep; cbn in Hraise.
    + rewrite (IH σ') by (by eapply step_Ok_wf). split.
      * intros (l1 & r1 & l2 & σ1 & -> & Hl1 & Hmet).
        exists (r :: l1), r1, l2, σ1. split; [done|]. split; [|done].
        by rewrite merge_loop_cons, Hstep.
      * intros (l1 & r1 & l2 & σ1 & Hl & Hl1 & Hmet).
        destruct l1 as [|r0 l1]; injection Hl as -> ->.
        -- injection Hl1 as <-. apply Hraise in Hmet. done.
        -- rewrite merge_loop_cons, Hstep in Hl1.
           by exists l1, r1, l2, σ1.
    + cbn. split.
      * intros [= ->]. exists [], r, l, σ. split; [done|]. split; [done|].
        by apply Hraise.
      * intros (l1 & r1 & l2 & σ1 & Hl & Hl1 & Hmet).
        destruct l1 as [|r0 l1]; injection Hl as -> ->.
        -- injection Hl1 as <-. by apply Hraise.
        -- by rewrite merge_loop_cons, Hstep in Hl1.
Qed.

Lemma run_raise_inv l e :
  run l = Raise e → (run_merge l).1 = Raise e.
Proof.
  rewrite run_spec. destruct (run_merge l) as [[[]|e'] σ]; cbn; [done|].
  by intros [= ->].
Qed.

(** X3: the script raises exactly when, at some record, the singular is
    already a key, the record has a gender, and the stored form of the
    entry equals that raw gender; the exception is then
    [KeyError('gender')], and no other exception is possible. *)
Theorem run_raises_iff (l : list record) (e : exn) :
  run l = Raise e ↔
  e = KeyError "gender" ∧
  ∃ l1 r l2 σ, l = (l1 ++ r :: l2)%list ∧ run_merge l1 = (Ok (), σ) ∧
               gender_test_met r (nouns_formatted σ).
Proof.
  split.
  - intros Hrun. assert (e = KeyError "gender") as ->.
    { destruct (run_outcome l) as [[out Ho]| Hr]; congruence. }
    split; [done|]. apply run_raise_inv in Hrun.
    by apply (merge_loop_raises l initial wf_store_empty).
  - intros [-> Hex].
    apply (merge_loop_raises l initial wf_store_empty) in Hex.
    rewrite run_spec. unfold run_merge.
    destruct (merge_loop l initial) as [o σ]. cbn in Hex. by subst o.
Qed.

Lemma run_raises_iff_witness :
  KeyError "gender" = KeyError "gender" ∧
  ∃ l1 r l2 σ, chat_input = (l1 ++ r :: l2)%list ∧
               run_merge l1 = (Ok (), σ) ∧
               gender_test_met r (nouns_formatted σ).
Proof.
  apply (proj1 (run_raises_iff chat_input (KeyError "gender"))).
  vm_compute. reflexivity.
Defined.

(** X4: when no raw gender of the input is itself made of the annotations
    [M], [F], [PL] and slashes, the script completes. *)
Theorem run_completes_without_annotation_genders (l : list record) :
  (∀ r g, r ∈ l → r !! "gender" = Some g → ¬ annotation_pieces g) →
  ∃ out, run l = Ok out.
Proof.
  intros Hsafe. destruct (run_outcome l) as [Hok|Hraise]; [done|].
  exfalso. apply run_raise_inv in Hraise.
  apply (merge_loop_raises l initial wf_store_empty) in Hraise
    as (l1 & r & l2 & σ1 & -> & Hl1 & (s & e & g & _ & He & Hg & Hf)).
  apply (Hsafe r g); [apply elem_of_app; right; left|done|].
  pose proof (run_merge_good l1) as Hgood. unfold run_merge in Hgood.
  rewrite Hl1 in Hgood. destruct (Hgood s e He) as [_ (f & Hf' & Hp)].
  by simplify_eq.
Qed.

Lemma run_completes_without_annotation_genders_witness :
  ∃ out, run scenario_C = Ok out.
Proof.
  apply run_completes_without_annotation_genders.
  intros r g Hr Hg. unfold scenario_C in Hr.
  rewrite !elem_of_cons, elem_of_nil in Hr.
  destruct Hr as [->|[->|[]]]; vm_compute in Hg;
    injection Hg as <-; unfold annotation_pieces; cbn;
    rewrite Forall_singleton, !elem_of_cons, elem_of_nil;
    intuition discriminate.
Defined.

(** ** The tokens of an ordered annotation *)

Lemma order_annotations_slow s :
  order_annotations s = join "/" (annotation_tokens (split "/" s)).
Proof.
  rewrite order_annotations_unfold. case_decide as Hs; [|done].
  unfold single_annotations in Hs. rewrite !elem_of_cons, elem_of_nil in Hs.
  destruct Hs as [->|[->|[->|[]]]]; vm_compute; reflexivity.
Qed.

Lemma split_join_tokens l :
  annotation_tokens l ≠ [] →
  Forall (no_sep "/") l →
  split "/" (join "/" (annotation_tokens l)) = annotation_tokens l.
Proof.
  intros Hne Hl. apply split_join; [|done].
  apply Forall_forall. intros t [_ Ht]%annotation_tokens_elem.
  rewrite Forall_forall in Hl. by apply Hl.
Qed.

Lemma split_order_annotations s :
  split "/" (order_annotations s) =
    match annotation_tokens (split "/" s) with
    | [] => [""]
    | T => T
    end.
Proof.
  rewrite order_annotations_slow.
  destruct (annotation_tokens (split "/" s)) as [|t T] eqn:HT; [done|].
  rewrite <- HT. apply split_join_tokens; [by rewrite HT|].
  apply split_no_sep.
Qed.

Lemma order_annotations_tokens s x :
  x ≠ "" → x ∈ split "/" (order_annotations s) ↔ x ∈ split "/" s.
Proof.
  intros Hx. rewrite split_order_annotations.
  pose proof (annotation_tokens_elem (split "/" s) x) as Hel.
  destruct (annotation_tokens (split "/" s)) as [|t T].
  - rewrite list_elem_of_singleton. rewrite elem_of_nil in Hel. tauto.
  - tauto.
Qed.

(** X11: the result of [order_annotations] is the slash-join of its own
    pieces; it is empty or has no empty piece; its pieces are in strictly
    increasing order; and its non-empty pieces are those of the
    argument. *)
Theorem order_annotations_result (s : string) :
  order_annotations s = join "/" (split "/" (order_annotations s)) ∧
  (order_annotations s = "" ∨
   Forall (λ t, t ≠ "") (split "/" (order_annotations s))) ∧
  StronglySorted str_lt (split "/" (order_annotations s)) ∧
  ∀ x, x ≠ "" → x ∈ split "/" (order_annotations s) ↔ x ∈ split "/" s.
Proof.
  split_and!.
  - rewrite split_order_annotations, order_annotations_slow.
    by destruct (annotation_tokens (split "/" s)).
  - rewrite split_order_annotations, order_annotations_slow.
    destruct (annotation_tokens (split "/" s)) as [|t T] eqn:HT; [by left|].
    right. rewrite <- HT. apply Forall_forall.
    by intros x [Hx _]%annotation_tokens_elem.
  - rewrite split_order_annotations.
    destruct (annotation_tokens (split "/" s)) as [|t T] eqn:HT.
    + repeat constructor.
    + rewrite <- HT. apply StronglySorted_strict.
      * apply annotation_tokens_sorted.
      * apply annotation_tokens_NoDup.
  - apply order_annotations_tokens.
Qed.

(** X12: the fast path of [order_annotations] does not change the result:
    the general path gives the same string on "F", "M" and "PL". *)
Theorem order_annotations_fast_path_redundant (s : string) :
  order_annotations s = join "/" (annotation_tokens (split "/" s)).
Proof. apply order_annotations_slow. Qed.

(** ** Entries persist and grow *)

Lemma append_assoc (a b c : string) : (a ++ b) ++ c = a ++ (b ++ c).
Proof.
  induction a as [|x a IH]; [done|].
  rewrite !append_cons. by rewrite IH.
Qed.

Lemma form_extends_refl f : form_extends f f.
Proof. by left. Qed.

Lemma form_extends_trans f1 f2 f3 :
  form_extends f1 f2 → form_extends f2 f3 → form_extends f1 f3.
Proof.
  intros [->|[g ->]] [->|[h ->]]; [by left|right; by eexists..|].
  right. exists (g ++ "/" ++ h). by rewrite !append_assoc.
Qed.

Lemma form_extends_pieces f f' t :
  form_extends f f' → t ∈ split "/" f → t ∈ split "/" f'.
Proof.
  intros [->|[g ->]] Ht; [done|].
  rewrite append_cons, append_nil_l, split_app. apply elem_of_app. by left.
Qed.

Lemma entry_extends_refl e : entry_extends e e.
Proof. split; [done|]. intros f Hf. exists f. split; [done|by left]. Qed.

Lemma entry_extends_trans e1 e2 e3 :
  entry_extends e1 e2 → entry_extends e2 e3 → entry_extends e1 e3.
Proof.
  intros [Hp1 Hf1] [Hp2 Hf2]. split; [congruence|].
  intros f Hf. destruct (Hf1 f Hf) as (f2 & Hf2' & Hx).
  destruct (Hf2 f2 Hf2') as (f3 & Hf3 & Hy).
  exists f3. split; [done|]. by eapply form_extends_trans.
Qed.

Lemma store_extends_refl m : store_extends m m.
Proof. intros k e He. exists e. split; [done|apply entry_extends_refl]. Qed.

Lemma store_extends_trans m1 m2 m3 :
  store_extends m1 m2 → store_extends m2 m3 → store_extends m1 m3.
Proof.
  intros H12 H23 k e He. destruct (H12 k e He) as (e2 & He2 & Hx).
  destruct (H23 k e2 He2) as (e3 & He3 & Hy).
  exists e3. split; [done|]. by eapply entry_extends_trans.
Qed.

Lemma store_extends_insert_fresh m k e :
  m !! k = None → store_extends m (<[k := e]> m).
Proof.
  intros Hk j e0 Hj. exists e0. split; [|apply entry_extends_refl].
  rewrite lookup_insert_ne; [done|]. by intros ->; simplify_eq.
Qed.

Lemma step_rel_extends r m out m' tr :
  step_rel r m out m' tr → store_extends m m'.
Proof.
  destruct 1; try apply store_extends_refl;
    try (by apply store_extends_insert_fresh).
  - apply (store_extends_trans _
             (<[s := <["plural" := p]> (created_entry r)]> m));
      [by apply store_extends_insert_fresh|].
    apply store_extends_insert_fresh. by rewrite lookup_insert_ne.
  - intros k e0 Hk. destruct (decide (k = s)) as [->|Hks].
    + simplify_eq. eexists. rewrite lookup_insert_eq. split; [done|]. split.
      * by rewrite lookup_insert_ne.
      * intros f0 Hf0. simplify_eq. eexists.
        rewrite lookup_insert_eq. split; [done|]. right. by eexists.
    + exists e0. rewrite lookup_insert_ne by done.
      split; [done|apply entry_extends_refl].
Qed.

Lemma merge_loop_extends l σ :
  wf_store (nouns_formatted σ) →
  store_extends (nouns_formatted σ) (nouns_formatted (merge_loop l σ).2).
Proof.
  revert σ. induction l as [|r l IH]; intros σ Hwf;
    [apply store_extends_refl|].
  rewrite merge_loop_cons.
  destruct (step_spec r σ Hwf) as (o & m1 & tr & -> & Hrel).
  pose proof (step_rel_extends _ _ _ _ _ Hrel) as Hext.
  destruct o as [[]|e]; [|done].
  eapply store_extends_trans; [done|].
  apply (IH (Machine m1 _)). by eapply step_rel_wf.
Qed.

Lemma run_merge_app_Ok l1 l2 σ :
  run_merge (l1 ++ l2) = (Ok (), σ) →
  ∃ σ1, run_merge l1 = (Ok (), σ1) ∧ merge_loop l2 σ1 = (Ok (), σ) ∧
        wf_store (nouns_formatted σ1).
Proof.
  unfold run_merge. rewrite merge_loop_app.
  destruct (merge_loop l1 initial) as [[[]|e] σ1] eqn:H1; [|done].
  intros H2. exists σ1. split_and!; [done..|].
  by destruct (merge_loop_invariant l1 initial _ _ wf_store_empty H1).
Qed.

Lemma normalise_fields_plural e :
  normalise_fields e !! "plural" = e !! "plural".
Proof.
  unfold normalise_fields. destruct (e !! "form"); [|done].
  by rewrite lookup_insert_ne.
Qed.

Lemma normalise_fields_form e f :
  e !! "form" = Some f →
  normalise_fields e !! "form" = Some (order_annotations f).
Proof.
  intros Hf. unfold normalise_fields. by rewrite Hf, lookup_insert_eq.
Qed.

(** X5: an entry never disappears: a wordform that is a key after a
    prefix of the input is a key of the output, with the same [plural]
    field, and every annotation its form had is still in its form. *)
Theorem entries_persist
    (l1 l2 : list record) (out : list (string * entry)) (k : string) (e : entry) :
  nouns_formatted (run_merge l1).2 !! k = Some e →
  run (l1 ++ l2) = Ok out →
  ∃ e', (k, e') ∈ out ∧
        e' !! "plural" = e !! "plural" ∧
        ∀ f t, e !! "form" = Some f → t ∈ split "/" f → t ≠ "" →
               ∃ f', e' !! "form" = Some f' ∧ t ∈ split "/" f'.
Proof.
  intros He (σ & Hm & ->)%run_Ok_inv.
  apply run_merge_app_Ok in Hm as (σ1 & H1 & H2 & Hwf1).
  rewrite H1 in He. cbn in He.
  pose proof (merge_loop_extends l2 σ1 Hwf1 k e He) as (e1 & He1 & Hp & Hf).
  rewrite H2 in He1. cbn in He1.
  exists (normalise_fields e1). split_and!.
  - apply elem_of_sorted_items. by rewrite lookup_fmap, He1.
  - by rewrite normalise_fields_plural.
  - intros f t Hef Ht Hne. destruct (Hf f Hef) as (f1 & Hf1 & Hext).
    exists (order_annotations f1). split; [by apply normalise_fields_form|].
    apply order_annotations_tokens; [done|].
    by eapply form_extends_pieces.
Qed.

Lemma entries_persist_witness :
  ∃ out e', run scenario_C = Ok out ∧ ("table", e') ∈ out ∧
            e' !! "plural" = Some "".
Proof.
  assert (run (take 1 scenario_C ++ drop 1 scenario_C)
            = Ok [ ("table", {[ "plural" := ""; "form" := "F/M" ]}) ])
    as Hrun by (vm_compute; reflexivity).
  assert (nouns_formatted (run_merge (take 1 scenario_C)).2 !! "table"
            = Some {[ "plural" := ""; "form" := "F" ]})
    as Hk by (vm_compute; reflexivity).
  destruct (entries_persist _ _ _ _ _ Hk Hrun) as (e' & Hin & Hp & _).
  eexists _, e'. split; [exact Hrun|]. split; [exact Hin|].
  rewrite Hp. reflexivity.
Defined.

(** ** Wordforms that are never a singular *)

Lemma step_rel_never_singular r m out m' tr k :
  step_rel r m out m' tr → r !! "singular" ≠ Some k →
  (∀ e, m !! k = Some e → e = new_plural_entry) →
  ∀ e, m' !! k = Some e → e = new_plural_entry.
Proof.
  intros Hrel Hk Hm.
  destruct Hrel as [s Hs ? ?|s p Hs ? ? ? ?|s p Hs ? ? ?|s e0 Hs ? ?
                   |s e0 g f Hs ? ? ? ?|s e0 g Hs ? ? ? ?|p ? ? ?|p ? ? ?|? ?];
    try done;
    try (assert (s ≠ k) by (intros ->; by apply Hk));
    intros e; rewrite ?lookup_insert; repeat case_decide;
    try congruence; auto.
Qed.

Lemma merge_loop_never_singular l σ k :
  wf_store (nouns_formatted σ) →
  (∀ r, r ∈ l → r !! "singular" ≠ Some k) →
  (∀ e, nouns_formatted σ !! k = Some e → e = new_plural_entry) →
  ∀ e, nouns_formatted (merge_loop l σ).2 !! k = Some e →
       e = new_plural_entry.
Proof.
  revert σ. induction l as [|r l IH]; intros σ Hwf Hl Hk; [done|].
  rewrite merge_loop_cons.
  destruct (step_spec r σ Hwf) as (o & m1 & tr & -> & Hrel).
  assert (∀ e, m1 !! k = Some e → e = new_plural_entry) as Hk1.
  { eapply step_rel_never_singular; [done| |done]. apply Hl. left. }
  destruct o as [[]|e0]; [|done].
  apply (IH (Machine m1 _)); [by eapply step_rel_wf| |done].
  intros r' Hr'. apply Hl. by right.
Qed.

Lemma normalise_new_plural_entry :
  normalise_fields new_plural_entry = new_plural_entry.
Proof.
  unfold normalise_fields, new_plural_entry.
  rewrite lookup_insert_ne by done. rewrite lookup_singleton_eq.
  apply insert_id. by rewrite lookup_insert_ne, lookup_singleton_eq.
Qed.

(** X6: a wordform that is never the singular of a record has, in the
    output, the entry of a plural: [plural] is "isPlural" and [form] is
    "PL". *)
Theorem plural_only_wordform_entry
    (l : list record) (out : list (string * entry)) (k : string) (e : entry) :
  run l = Ok out → (k, e) ∈ out →
  (∀ r, r ∈ l → r !! "singular" ≠ Some k) →
  e = new_plural_entry.
Proof.
  intros (σ & Hm & ->)%run_Ok_inv Hin Hnever.
  apply elem_of_sorted_items in Hin. rewrite lookup_fmap in Hin.
  destruct (nouns_formatted σ !! k) as [e0|] eqn:He0; [|done].
  injection Hin as <-.
  assert (e0 = new_plural_entry) as ->.
  { apply (merge_loop_never_singular l initial k wf_store_empty Hnever).
    - intros e He. cbn in He. by rewrite lookup_empty in He.
    - unfold run_merge in Hm. by rewrite Hm. }
  apply normalise_new_plural_entry.
Qed.

Lemma plural_only_wordform_entry_witness :
  run scenario_A = Ok scenario_A_result ∧
  ({[ "plural" := "isPlural"; "form" := "PL" ]} : entry) = new_plural_entry.
Proof.
  assert (run scenario_A = Ok scenario_A_result) as Hrun
    by (vm_compute; reflexivity).
  split; [exact Hrun|].
  apply (plural_only_wordform_entry scenario_A scenario_A_result "chats").
  - exact Hrun.
  - right. left.
  - intros r Hr. apply list_elem_of_singleton in Hr as ->.
    vm_compute. discriminate.
Defined.

(** ** The record that creates a singular *)

Lemma created_entry_plural r : created_entry r !! "plural" = Some "".
Proof.
  unfold created_entry, new_singular_entry.
  destruct (r !! "gender"); by rewrite ?(lookup_insert_ne _ "form"),
    lookup_insert_eq.
Qed.

Lemma step_rel_creates r m out m' tr s :
  step_rel r m out m' tr → r !! "singular" = Some s → m !! s = None →
  ∃ e, m' !! s = Some e ∧
       e !! "plural" = Some (default "" (r !! "plural")) ∧
       ∃ f, e !! "form" = Some f ∧ form_extends (created_form r) f.
Proof.
  intros Hrel Hs Hm.
  destruct Hrel as [s0 Hs0 ? Hp|s0 p Hs0 ? Hp ? ?|s0 p Hs0 ? Hp ?|s0 e0 Hs0 ? ?
                   |s0 e0 g f Hs0 ? ? ? ?|s0 e0 g Hs0 ? ? ? ?|p ? ? ?|p ? ? ?|? ?];
    simplify_eq; rewrite ?Hp; cbn [default].
  - eexists. rewrite lookup_insert_eq. split; [done|].
    split; [apply created_entry_plural|].
    exists (created_form r). split; [apply created_entry_form|by left].
  - eexists. rewrite lookup_insert_ne, lookup_insert_eq by done.
    split; [done|]. split; [by rewrite lookup_insert_eq|].
    exists (created_form r). rewrite lookup_insert_ne by done.
    split; [apply created_entry_form|by left].
  - eexists. rewrite lookup_insert_eq. split; [done|].
    split; [by rewrite lookup_insert_ne, lookup_insert_eq|].
    eexists. rewrite lookup_insert_eq. split; [done|]. right. by exists "PL".
Qed.

(** X7: the record that makes a singular a key decides the [plural] field
    of its entry in the output (the plural of the record, or the empty
    string), and its recognised gender is in the form. *)
Theorem first_record_creates_entry
    (l1 l2 : list record) (r : record) (out : list (string * entry))
    (s : string) :
  r !! "singular" = Some s →
  nouns_formatted (run_merge l1).2 !! s = None →
  run (l1 ++ r :: l2) = Ok out →
  ∃ e, (s, e) ∈ out ∧
       e !! "plural" = Some (default "" (r !! "plural")) ∧
       ∀ g, r !! "gender" = Some g → map_genders g ≠ "" →
            ∃ f, e !! "form" = Some f ∧ map_genders g ∈ split "/" f.
Proof.
  intros Hs Hnew (σ & Hm & ->)%run_Ok_inv.
  apply run_merge_app_Ok in Hm as (σ1 & H1 & H2 & Hwf1).
  rewrite H1 in Hnew. cbn in Hnew.
  rewrite merge_loop_cons in H2.
  destruct (step_spec r σ1 Hwf1) as (o & m2 & tr & Hstep & Hrel).
  rewrite Hstep in H2. destruct o as [[]|e0]; [|done].
  destruct (step_rel_creates _ _ _ _ _ s Hrel Hs Hnew)
    as (e2 & He2 & Hp2 & f2 & Hf2 & Hext2).
  pose proof (step_rel_wf _ _ _ _ _ Hwf1 Hrel) as Hwf2.
  pose proof (merge_loop_extends l2 (Machine m2 (visited σ1 ++ tr)) Hwf2
                s e2 He2) as (e3 & He3 & Hp3 & Hf3).
  rewrite H2 in He3. cbn in He3.
  exists (normalise_fields e3). split_and!.
  - apply elem_of_sorted_items. by rewrite lookup_fmap, He3.
  - by rewrite normalise_fields_plural, Hp3.
  - intros g Hg Hne. destruct (Hf3 f2 Hf2) as (f3 & Hf3' & Hext3).
    exists (order_annotations f3). split; [by apply normalise_fields_form|].
    apply order_annotations_tokens; [done|].
    apply (form_extends_pieces (created_form r) f3);
      [by apply (form_extends_trans _ f2)|].
    unfold created_form. rewrite Hg.
    destruct (map_genders_cases g) as [->|[->| ->]]; cbn; try done;
      apply list_elem_of_singleton; done.
Qed.

Lemma first_record_creates_entry_witness :
  ∃ e, ("chat", e) ∈ scenario_A_result ∧ e !! "plural" = Some "chats".
Proof.
  destruct (first_record_creates_entry [] []
              {[ "singular" := "chat"; "plural" := "chats";
                 "gender" := "masculine" ]} scenario_A_result "chat")
    as (e & Hin & Hp & _).
  - reflexivity.
  - reflexivity.
  - vm_compute. reflexivity.
  - exists e. split; [exact Hin|]. rewrite Hp. reflexivity.
Defined.

Lemma step_rel_collision r m m' tr s p :
  step_rel r m (Ok ()) m' tr →
  r !! "singular" = Some s → m !! s = None → r !! "plural" = Some p →
  p = s ∨ is_Some (m !! p) →
  m' !! s = Some (<["form" := created_form r ++ "/PL"]>
                    (<["plural" := p]> (created_entry r))) ∧
  dom m' = {[s]} ∪ dom m.
Proof.
  intros Hrel Hs Hm Hp Hcol.
  inversion Hrel; simplify_eq.
  - destruct Hcol as [?|[? ?]]; simplify_eq.
  - by rewrite lookup_insert_eq, dom_insert_L.
Qed.

(** X17: when the plural of a record that creates a singular is already a
    key (the singular itself or an earlier wordform), no entry is made for
    the plural and the singular's form receives the annotation "PL". *)
Theorem plural_already_key_marks_singular
    (l1 l2 : list record) (r : record) (out : list (string * entry))
    (s p : string) :
  r !! "singular" = Some s →
  nouns_formatted (run_merge l1).2 !! s = None →
  r !! "plural" = Some p →
  p = s ∨ is_Some (nouns_formatted (run_merge l1).2 !! p) →
  run (l1 ++ r :: l2) = Ok out →
  dom (nouns_formatted (run_merge (l1 ++ [r])).2)
    = {[s]} ∪ dom (nouns_formatted (run_merge l1).2) ∧
  ∃ e f, (s, e) ∈ out ∧ e !! "plural" = Some p ∧
         e !! "form" = Some f ∧ "PL" ∈ split "/" f.
Proof.
  intros Hs Hnew Hp Hcol (σ & Hm & ->)%run_Ok_inv.
  apply run_merge_app_Ok in Hm as (σ1 & H1 & H2 & Hwf1).
  unfold run_merge in *. rewrite merge_loop_app.
  rewrite H1 in *. cbn [snd] in *.
  rewrite merge_loop_cons in H2. rewrite merge_loop_cons.
  destruct (step_spec r σ1 Hwf1) as (o & m2 & tr & Hstep & Hrel).
  rewrite Hstep in *. destruct o as [[]|e0]; [|done].
  destruct (step_rel_collision _ _ _ _ s p Hrel Hs Hnew Hp Hcol)
    as [He2 Hdom].
  split; [done|].
  pose proof (step_rel_wf _ _ _ _ _ Hwf1 Hrel) as Hwf2.
  pose proof (merge_loop_extends l2 (Machine m2 (visited σ1 ++ tr)) Hwf2
                s _ He2) as (e3 & He3 & Hp3 & Hf3).
  rewrite H2 in He3. cbn in He3.
  destruct (Hf3 (created_form r ++ "/PL")) as (f3 & Hf3' & Hext);
    [by rewrite lookup_insert_eq|].
  exists (normalise_fields e3), (order_annotations f3). split_and!.
  - apply elem_of_sorted_items. by rewrite lookup_fmap, He3.
  - rewrite normalise_fields_plural, Hp3.
    by rewrite lookup_insert_ne, lookup_insert_eq.
  - by apply normalise_fields_form.
  - apply order_annotations_tokens; [done|].
    apply (form_extends_pieces (created_form r ++ "/PL") f3); [done|].
    rewrite split_app. apply elem_of_app. right. left.
Qed.

Lemma plural_already_key_marks_singular_witness :
  let l1 : list record := [ {[ "singular" := "gars"; "plural" := "gens" ]} ] in
  let r : record := {[ "singular" := "personne"; "plural" := "gens" ]} in
  ∃ out e f, run (l1 ++ [r]) = Ok out ∧ ("personne", e) ∈ out ∧
             e !! "form" = Some f ∧ "PL" ∈ split "/" f.
Proof.
  intros l1 r.
  assert (run (l1 ++ r :: []) =
            Ok [ ("gars", {[ "plural" := "gens"; "form" := "" ]});
                 ("gens", new_plural_entry);
                 ("personne", {[ "plural" := "gens"; "form" := "PL" ]}) ])
    as Hrun by (vm_compute; reflexivity).
  edestruct (plural_already_key_marks_singular l1 [] r)
    as (_ & e & f & Hin & _ & Hf & Ht);
    [reflexivity|reflexivity|reflexivity| |exact Hrun|].
  - right. vm_compute. eexists. reflexivity.
  - eexists _, e, f. split; [exact Hrun|]. by split_and!.
Defined.

(** ** Records without a wordform *)

Lemma step_ignores r σ :
  r !! "singular" = None → r !! "plural" = None → step r σ = (Ok (), σ).
Proof. intros Hs Hp. destruct σ as [m v]. by exec. Qed.

(** X8: a record with neither [singular] nor [plural] contributes
    nothing: removing it from the input does not change the result. *)
Theorem record_without_wordform_ignored (l1 l2 : list record) (r : record) :
  r !! "singular" = None → r !! "plural" = None →
  run (l1 ++ r :: l2) = run (l1 ++ l2).
Proof.
  intros Hs Hp. unfold run, format_nouns, mbind, M_bind.
  rewrite !merge_loop_app.
  destruct (merge_loop l1 initial) as [[[]|e] σ1]; [|done].
  by rewrite merge_loop_cons, step_ignores.
Qed.

Lemma record_without_wordform_ignored_witness :
  run ({[ "gender" := "masculine" ]} :: scenario_A) = run scenario_A.
Proof.
  apply (record_without_wordform_ignored [] scenario_A
           {[ "gender" := "masculine" ]}); reflexivity.
Defined.

(** ** Genders are recorded *)

Lemma split_map_genders g : split "/" (map_genders g) = [map_genders g].
Proof. by destruct (map_genders_cases g) as [->|[->| ->]]. Qed.

Lemma split_created_form r :
  split "/" (created_form r) = [created_form r].
Proof.
  unfold created_form. destruct (r !! "gender"); [|done].
  apply split_map_genders.
Qed.

Lemma step_rel_records_gender r m m' tr s g :
  step_rel r m (Ok ()) m' tr →
  r !! "singular" = Some s → r !! "gender" = Some g →
  ∃ e f, m' !! s = Some e ∧ e !! "form" = Some f ∧
         map_genders g ∈ split "/" f.
Proof.
  intros Hrel Hs Hg.
  assert (created_form r = map_genders g) as Hcf
    by (unfold created_form; by rewrite Hg).
  inversion Hrel; simplify_eq.
  - eexists _, _. rewrite lookup_insert_eq. split; [done|].
    split; [apply created_entry_form|].
    rewrite Hcf, split_map_genders. by left.
  - eexists _, _. rewrite lookup_insert_ne, lookup_insert_eq by done.
    split; [done|]. rewrite lookup_insert_ne by done.
    split; [apply created_entry_form|].
    rewrite Hcf, split_map_genders. by left.
  - eexists _, _. rewrite !lookup_insert_eq. split; [done|]. split; [done|].
    rewrite split_app, Hcf, split_map_genders.
    by left.
  - eexists _, _. rewrite !lookup_insert_eq. split; [done|]. split; [done|].
    rewrite append_cons, append_nil_l, split_app, split_map_genders.
    apply elem_of_app. right. by left.
Qed.

(** X9: when the script completes, the recognised gender of every record
    with a singular is among the annotations of that singular's form. *)
Theorem recognised_gender_recorded
    (l : list record) (out : list (string * entry)) (r : record)
    (s g : string) :
  run l = Ok out → r ∈ l →
  r !! "singular" = Some s → r !! "gender" = Some g → map_genders g ≠ "" →
  ∃ e f, (s, e) ∈ out ∧ e !! "form" = Some f ∧
         map_genders g ∈ split "/" f.
Proof.
  intros (σ & Hm & ->)%run_Ok_inv Hr Hs Hg Hne.
  apply list_elem_of_split in Hr as (l1 & l2 & ->).
  apply run_merge_app_Ok in Hm as (σ1 & H1 & H2 & Hwf1).
  rewrite merge_loop_cons in H2.
  destruct (step_spec r σ1 Hwf1) as (o & m2 & tr & Hstep & Hrel).
  rewrite Hstep in H2. destruct o as [[]|e0]; [|done].
  destruct (step_rel_records_gender _ _ _ _ s g Hrel Hs Hg)
    as (e2 & f2 & He2 & Hf2 & Hin2).
  pose proof (step_rel_wf _ _ _ _ _ Hwf1 Hrel) as Hwf2.
  pose proof (merge_loop_extends l2 (Machine m2 (visited σ1 ++ tr)) Hwf2
                s e2 He2) as (e3 & He3 & _ & Hf3).
  rewrite H2 in He3. cbn in He3.
  destruct (Hf3 f2 Hf2) as (f3 & Hf3' & Hext).
  exists (normalise_fields e3), (order_annotations f3). split_and!.
  - apply elem_of_sorted_items. by rewrite lookup_fmap, He3.
  - by apply normalise_fields_form.
  - apply order_annotations_tokens; [done|].
    by apply (form_extends_pieces f2 f3).
Qed.

Lemma recognised_gender_recorded_witness :
  ∃ e f, ("table", e) ∈ [ ("table", ({[ "plural" := ""; "form" := "F/M" ]} : entry)) ] ∧
         e !! "form" = Some f ∧ "M" ∈ split "/" f.
Proof.
  apply (recognised_gender_recorded scenario_C _
           {[ "singular" := "table"; "gender" := "masculine" ]}
           "table" "masculine").
  - vm_compute. reflexivity.
  - right. left.
  - reflexivity.
  - reflexivity.
  - discriminate.
Defined.

(** ** Annotations have a source *)

Lemma annotation_source_mono l l' k t :
  (∀ r, r ∈ l → r ∈ l') → annotation_source l k t → annotation_source l' k t.
Proof.
  intros Hl [[-> (r & Hr & Hx)]|(r & g & Hr & Hx)].
  - left. split; [done|]. exists r. auto.
  - right. exists r, g. auto.
Qed.

Lemma created_form_source l r s t :
  r !! "singular" = Some s → t ∈ split "/" (created_form r) → t ≠ "" →
  annotation_source (l ++ [r]) s t.
Proof.
  intros Hs Ht Hne. rewrite split_created_form in Ht.
  apply list_elem_of_singleton in Ht as ->.
  unfold created_form in *. destruct (r !! "gender") as [g|] eqn:Hg; [|done].
  right. exists r, g. split_and!; try done.
  apply elem_of_app. right. by left.
Qed.

Lemma new_plural_entry_form : new_plural_entry !! "form" = Some "PL".
Proof.
  unfold new_plural_entry. by rewrite lookup_insert_ne, lookup_singleton_eq.
Qed.

Lemma step_rel_sourced l r m out m' tr :
  sourced l m → step_rel r m out m' tr → sourced (l ++ [r]) m'.
Proof.
  intros Hsrc Hrel.
  assert (∀ k e f t, m !! k = Some e → e !! "form" = Some f →
            t ∈ split "/" f → t ≠ "" → annotation_source (l ++ [r]) k t)
    as Hold.
  { intros k e f t ? ? ? ?. eapply annotation_source_mono; [|by eapply Hsrc].
    intros r0 ?. apply elem_of_app. by left. }
  assert (r ∈ (l ++ [r])%list) as Hr by (apply elem_of_app; right; left).
  destruct Hrel as [s Hs ? Hp|s p Hs ? Hp ? ?|s p Hs ? Hp ?|s e0 Hs ? ?
                   |s e0 g f0 Hs ? ? ? ?|s e0 g Hs ? ? ? ?|p ? ? ?|p ? ? ?|? ?];
    try done; intros k e f t Hk Hf Ht Hne.
  - rewrite lookup_insert in Hk. case_decide; [|by eapply Hold].
    simplify_eq. rewrite created_entry_form in Hf. simplify_eq.
    by apply created_form_source.
  - rewrite lookup_insert in Hk. case_decide.
    { simplify_eq. rewrite new_plural_entry_form in Hf. simplify_eq.
      left. cbn in Ht. apply list_elem_of_singleton in Ht.
      split; [done|]. exists r. auto. }
    rewrite lookup_insert in Hk. case_decide; [|by eapply Hold].
    simplify_eq. rewrite lookup_insert_ne, created_entry_form in Hf by done.
    simplify_eq. by apply created_form_source.
  - rewrite lookup_insert in Hk. case_decide; [|by eapply Hold].
    simplify_eq. rewrite lookup_insert_eq in Hf. simplify_eq.
    rewrite split_app in Ht.
    apply elem_of_app in Ht as [Ht|Ht]; [by apply created_form_source|].
    cbn in Ht. apply list_elem_of_singleton in Ht as ->.
    left. split; [done|]. exists r. split; [done|]. right. by rewrite Hp.
  - rewrite lookup_insert in Hk. case_decide; [|by eapply Hold].
    simplify_eq. rewrite lookup_insert_eq in Hf. simplify_eq.
    rewrite append_cons, append_nil_l, split_app in Ht.
    apply elem_of_app in Ht as [Ht|Ht]; [by eapply Hold|].
    rewrite split_map_genders in Ht. apply list_elem_of_singleton in Ht.
    right. exists r, g. auto.
  - rewrite lookup_insert in Hk. case_decide; [|by eapply Hold].
    simplify_eq. rewrite new_plural_entry_form in Hf. simplify_eq.
    left. cbn in Ht. apply list_elem_of_singleton in Ht.
    split; [done|]. exists r. auto.
Qed.

Lemma merge_loop_sourced l0 l σ :
  wf_store (nouns_formatted σ) → sourced l0 (nouns_formatted σ) →
  sourced (l0 ++ l) (nouns_formatted (merge_loop l σ).2).
Proof.
  revert l0 σ. induction l as [|r l IH]; intros l0 σ Hwf Hsrc.
  - by rewrite app_nil_r.
  - rewrite merge_loop_cons.
    destruct (step_spec r σ Hwf) as (o & m1 & tr & -> & Hrel).
    pose proof (step_rel_sourced l0 r _ _ _ _ Hsrc Hrel) as Hsrc1.
    replace (l0 ++ r :: l)%list with ((l0 ++ [r]) ++ l)%list
      by (by rewrite <- app_assoc).
    destruct o as [[]|e].
    + apply (IH _ (Machine m1 _)); [by eapply step_rel_wf|done].
    + cbn. intros k e0 f t ? ? ? ?.
      eapply annotation_source_mono; [|by eapply Hsrc1].
      intros r0 ?. apply elem_of_app. by left.
Qed.

(** X10: every annotation in a form of the output has a source in the
    input: a gender annotation on a wordform comes from a record with that
    singular and a gender mapped to it; "PL" comes from a record with that
    plural, or from a record with that singular which carries a plural. *)
Theorem output_annotations_have_source
    (l : list record) (out : list (string * entry))
    (k : string) (e : entry) (f t : string) :
  run l = Ok out → (k, e) ∈ out → e !! "form" = Some f →
  t ∈ split "/" f → t ≠ "" →
  annotation_source l k t.
Proof.
  intros (σ & Hm & ->)%run_Ok_inv Hin Hf Ht Hne.
  apply elem_of_sorted_items in Hin. rewrite lookup_fmap in Hin.
  destruct (nouns_formatted σ !! k) as [e0|] eqn:He0; [|done].
  injection Hin as <-.
  pose proof (merge_loop_invariant l initial _ _ wf_store_empty Hm)
    as (Hwf & _).
  destruct (Hwf k e0 He0) as [[f0 Hf0] _].
  rewrite (normalise_fields_form e0 f0 Hf0) in Hf. injection Hf as <-.
  apply (proj1 (order_annotations_tokens f0 t Hne)) in Ht.
  assert (sourced ([] ++ l) (nouns_formatted (merge_loop l initial).2)) as Hs.
  { apply merge_loop_sourced; [apply wf_store_empty|].
    intros k' e' f' t' Hk'. cbn in Hk'. by rewrite lookup_empty in Hk'. }
  unfold run_merge in Hm. rewrite Hm in Hs. cbn in Hs.
  by apply (Hs k e0 f0 t).
Qed.

Lemma output_annotations_have_source_witness :
  annotation_source scenario_C "table" "F".
Proof.
  apply (output_annotations_have_source scenario_C
           [ ("table", {[ "plural" := ""; "form" := "F/M" ]}) ]
           "table" {[ "plural" := ""; "form" := "F/M" ]} "F/M" "F").
  - vm_compute. reflexivity.
  - left.
  - reflexivity.
  - left.
  - discriminate.
Defined.

(** X16: on the mapping built by the merge loop, the normalisation pass of
    lines 121-122 completes without an exception, replaces the form of
    every entry by its ordered annotation, and changes nothing else. *)
Theorem normalise_after_merge (l : list record) :
  let σ := (run_merge l).2 in
  normalise σ =
    (Ok (), Machine (normalise_fields <$> nouns_formatted σ) (visited σ)).
Proof.
  intros σ. subst σ. unfold run_merge.
  destruct (merge_loop l initial) as [o [m v]] eqn:Hrun.
  destruct (merge_loop_invariant l initial _ _ wf_store_empty Hrun)
    as (Hwf & _).
  cbn in *. by apply normalise_spec.
Qed.

(** * Properties of [run_request] *)

Section RunRequestFacts.
Import Interactive.
Context {World Path : Type}.
Context (get_data :
  string → string → string → string → bool → bool → World → bool * World).
Context (path_str : Path → string).

Abbreviation export_pair := (export_pair get_data path_str).
Abbreviation for_data_types := (for_data_types get_data path_str).
Abbreviation for_languages := (for_languages get_data path_str).
Abbreviation run_request := (run_request get_data path_str).

Lemma exports_app ev1 ev2 : exports (ev1 ++ ev2) = (exports ev1 ++ exports ev2)%list.
Proof. unfold exports. apply omap_app. Qed.

Lemma progress_app ev1 ev2 : progress (ev1 ++ ev2) = progress ev1 + progress ev2.
Proof. apply sum_list_with_app. Qed.

Lemma export_pair_facts config language data_type w :
  exports (export_pair config language data_type w).1 = [(language, data_type)] ∧
  progress (export_pair config language data_type w).1 = 1 ∧
  announced (export_pair config language data_type w).1 = [] ∧
  (∀ msg, Rprint msg ∉ (export_pair config language data_type w).1).
Proof.
  unfold export_pair. destruct (get_data _ _ _ _ _ _ w) as [ok w'].
  cbn [fst]. split_and!; try done.
  intros msg. rewrite !not_elem_of_cons. split_and!; try done.
  apply not_elem_of_nil.
Qed.

Lemma for_data_types_facts config language todo w :
  exports (for_data_types config language todo w).1
    = map (pair language) todo ∧
  progress (for_data_types config language todo w).1 = length todo ∧
  announced (for_data_types config language todo w).1 = [] ∧
  (∀ msg, Rprint msg ∉ (for_data_types config language todo w).1).
Proof.
  revert w. induction todo as [|data_type rest IH]; intros w; cbn [for_data_types for_languages fst].
  - split_and!; try done. intros msg. apply not_elem_of_nil.
  - destruct (export_pair_facts config language data_type w)
      as (He & Hp & Ha & Hr).
    destruct (export_pair config language data_type w) as [ev1 w1].
    destruct (IH w1) as (He' & Hp' & Ha' & Hr').
    destruct (for_data_types config language rest w1) as [ev2 w2].
    cbn [fst] in *. split_and!.
    + by rewrite exports_app, He, He'.
    + by rewrite progress_app, Hp, Hp'.
    + unfold announced in *. by rewrite omap_app, Ha, Ha'.
    + intros msg. rewrite elem_of_app. intros [?|?]; [by eapply Hr|by eapply Hr'].
Qed.

Lemma for_languages_facts config todo w :
  exports (for_languages config todo w).1
    = list_prod todo (selected_data_types config) ∧
  progress (for_languages config todo w).1
    = length todo * length (selected_data_types config) ∧
  announced (for_languages config todo w).1 = [] ∧
  (∀ msg, Rprint msg ∉ (for_languages config todo w).1).
Proof.
  revert w. induction todo as [|language rest IH]; intros w; cbn [for_data_types for_languages fst].
  - split_and!; try done. intros msg. apply not_elem_of_nil.
  - destruct (for_data_types_facts config language
                (selected_data_types config) w) as (He & Hp & Ha & Hr).
    destruct (for_data_types config language (selected_data_types config) w)
      as [ev1 w1].
    destruct (IH w1) as (He' & Hp' & Ha' & Hr').
    destruct (for_languages config rest w1) as [ev2 w2].
    cbn [fst] in *. split_and!.
    + by rewrite exports_app, He, He'.
    + by rewrite progress_app, Hp, Hp'.
    + unfold announced in *. by rewrite omap_app, Ha, Ha'.
    + intros msg. rewrite elem_of_app. intros [?|?]; [by eapply Hr|by eapply Hr'].
Qed.


(** X14: when [run_request] opens the progress bar, the updates it
    reports add up to the total it announced. *)
Theorem run_request_progress_reaches_total
    (config : ScribeDataConfig Path) (w : World) (total : nat) :
  total ∈ announced (run_request config w).1 →
  progress (run_request config w).1 = total.
Proof.
  unfold run_request.
  destruct (bool_decide (selected_languages config = []) ||
            bool_decide (selected_data_types config = [])).
  - cbn. by intros ?%elem_of_nil.
  - destruct (for_languages_facts config (selected_languages config) w)
      as (_ & Hp & Ha & _).
    destruct (for_languages config (selected_languages config) w) as [ev w'].
    cbn [fst] in *. unfold announced in *.
    rewrite !omap_app, Ha. rewrite !progress_app, Hp.
    destruct (overwrite config); cbn; rewrite list_elem_of_singleton;
      intros ->; lia.
Qed.

(** X15: [run_request] prints the success message exactly when the
    overwrite flag is set and both selections are non-empty, whatever
    [get_data] returns. *)
Theorem run_request_banner_iff_overwrite
    (config : ScribeDataConfig Path) (w : World) :
  Rprint success_message ∈ (run_request config w).1 ↔
  overwrite config = true ∧
  selected_languages config ≠ [] ∧ selected_data_types config ≠ [].
Proof.
  unfold run_request.
  destruct (decide (selected_languages config = [])) as [Hl|Hl].
  { rewrite (bool_decide_eq_true_2 _ Hl). cbn.
    rewrite list_elem_of_singleton. split; [done|]. by intros (_ & ? & _). }
  destruct (decide (selected_data_types config = [])) as [Hd|Hd].
  { rewrite (bool_decide_eq_true_2 _ Hd), orb_true_r. cbn.
    rewrite list_elem_of_singleton. split; [done|]. by intros (_ & _ & ?). }
  rewrite !bool_decide_eq_false_2 by done. cbn [orb].
  destruct (for_languages_facts config (selected_languages config) w)
    as (_ & _ & _ & Hr).
  destruct (for_languages config (selected_languages config) w) as [ev w'].
  cbn [fst] in *. rewrite !elem_of_app, !elem_of_cons, !elem_of_nil.
  destruct (overwrite config).
  - rewrite list_elem_of_singleton. split; [done|]. intros _. tauto.
  - rewrite elem_of_nil. split; [|by intros [? _]].
    intros [[?|[]]|[Hin|[[?|[]]|[]]]]; try done. by apply Hr in Hin.
Qed.

End RunRequestFacts.

(** ** Test cases for [run_request] *)

Section RunRequestTests.
Import Interactive.

Lemma run_request_progress_reaches_total_witness :
  progress (run_request failing_get_data id (test_config false) ()).1 = 4.
Proof.
  apply run_request_progress_reaches_total.
  assert (announced (run_request failing_get_data id (test_config false) ()).1
            = [4]) as -> by reflexivity.
  left.
Defined.

Lemma run_request_banner_iff_overwrite_witness :
  Rprint success_message ∈
    (run_request failing_get_data id (test_config true) ()).1.
Proof.
  apply run_request_banner_iff_overwrite.
  split; [reflexivity|]. split; discriminate.
Defined.

End RunRequestTests.
